(** * InstructionPipeline: a four-stage pipeline simulator and its dependency graph

    A shallow embedding of the C++ sources
      - [DependencyGraph.h] / [DependencyGraph.cpp]  (module [Graph]),
      - [PipelineSim.h] / [PipelineSim.cpp]          (module [Pipeline]),
      - [Pipeline_Main.cpp]                          (module [Driver]),
    followed by the properties established about them.

    Conventions.
    - [TCHAR] values (node and instruction identities) are character codes in [Z];
      [int] values are in [Z].
    - [DWORD] counters are in [N] and wrap around at [2^32] ([dword_inc]).
    - [size_t] values are in [N]; they are only used here for container sizes
      and for indices into the node vector.
    - [std::list] and [std::queue] are lists whose head is the front.
    - [std::set<CDirectedEdgeData>], which orders and identifies an edge by its
      destination only, is a finite map from destination to weight. *)

From Stdlib Require Import ZArith NArith Lia Bool Sorted.
From stdpp Require Import base option list gmap.

Local Open Scope Z_scope.

(** ** Machine integers (CommonDef.h) *)

Definition DWORD_MODULUS : N := (2 ^ 32)%N.

(** [x++] on a [DWORD]. *)
Definition dword_inc (x : N) : N := ((x + 1) mod DWORD_MODULUS)%N.

(** Width of [size_t] in the 64-bit build. *)
Definition SIZE_MODULUS : N := (2 ^ 64)%N.

(** Conversion of a number to a [size_t] argument. *)
Definition to_size_t (n : N) : N := (n mod SIZE_MODULUS)%N.

(** ** The dependency graph *)

Module Graph.

(** [typedef TCHAR NODE_ID_T] *)
Abbreviation NODE_ID_T := Z (only parsing).

Definition INVALID_NODE_ID : NODE_ID_T := 0.

(** [static_cast<size_t>(-1)] *)
Definition INVALID_NODE_INDEX : N := (SIZE_MODULUS - 1)%N.

Definition DEFAULT_MAX_NODES : N := 10%N.

(** [CDirectedEdgeData]: destination and weight.  Its comparison operators
    look at [m_idDestNode] only. *)
Record CDirectedEdgeData := mkEdge {
  m_idDestNode : NODE_ID_T;
  m_iWeight : Z
}.

(** [CGraphNode]: the edge set is keyed by destination. *)
Record CGraphNode := mkNode {
  m_ID : NODE_ID_T;
  m_setEdges : gmap Z Z
}.

(** [CGraphNode::CGraphNode()] *)
Definition CGraphNode_default : CGraphNode :=
  {| m_ID := INVALID_NODE_ID; m_setEdges := ∅ |}.

Definition SetNodeID (n : CGraphNode) (idSet : NODE_ID_T) : CGraphNode :=
  {| m_ID := idSet; m_setEdges := m_setEdges n |}.

Definition GetNodeID (n : CGraphNode) : NODE_ID_T := m_ID n.

(** [CGraphNode::IsValid] *)
Definition IsValid (n : CGraphNode) : bool := negb (m_ID n =? INVALID_NODE_ID).

(** [std::set::insert]: the set after the call and whether the element was
    inserted; an element equal to one already present is not inserted. *)
Definition set_insert (s : gmap Z Z) (e : CDirectedEdgeData) : gmap Z Z * bool :=
  match s !! m_idDestNode e with
  | Some _ => (s, false)
  | None => (<[m_idDestNode e := m_iWeight e]> s, true)
  end.

(** [CGraphNode::AddEdge(const CDirectedEdgeData&)] *)
Definition NodeAddEdgeData (n : CGraphNode) (edge : CDirectedEdgeData)
  : bool * CGraphNode :=
  if IsValid n then
    let Result := set_insert (m_setEdges n) edge in
    (if snd Result then true else false,
     {| m_ID := m_ID n; m_setEdges := fst Result |})
  else (false, n).

(** [CGraphNode::AddEdge(const NODE_ID_T&, int)] *)
Definition NodeAddEdge (n : CGraphNode) (idToNode : NODE_ID_T) (iWeight : Z)
  : bool * CGraphNode :=
  NodeAddEdgeData n (mkEdge idToNode iWeight).

(** [CGraphNode::GetNumEdges] *)
Definition NodeGetNumEdges (n : CGraphNode) : N :=
  if IsValid n then N.of_nat (size (m_setEdges n)) else 0%N.

(** [CGraphNode::HasEdge]: [find] on the destination key. *)
Definition HasEdge (n : CGraphNode) (idToNode : NODE_ID_T) : bool :=
  match m_setEdges n !! idToNode with
  | Some _ => true
  | None => false
  end.

(** Weight stored for a destination, if the edge is present. *)
Definition EdgeWeight (n : CGraphNode) (idToNode : NODE_ID_T) : option Z :=
  m_setEdges n !! idToNode.

(** [CDependencyGraph] *)
Record CDependencyGraph := mkGraph {
  m_nMaxNodes : N;
  m_nNumNodes : N;
  m_vNodes : list CGraphNode
}.

(** [CDependencyGraph::CDependencyGraph(size_t nMaxNodes)] *)
Definition CDependencyGraph_new (nMaxNodes : N) : CDependencyGraph :=
  {| m_nMaxNodes := to_size_t nMaxNodes;
     m_nNumNodes := 0%N;
     m_vNodes := replicate (N.to_nat (to_size_t nMaxNodes)) CGraphNode_default |}.

(** [CDependencyGraph::CDependencyGraph()] *)
Definition CDependencyGraph_default : CDependencyGraph :=
  CDependencyGraph_new DEFAULT_MAX_NODES.

(** [CDependencyGraph::IsValidNodeID]: ['a'..'y'] or ['A'..'Y']. *)
Definition IsValidNodeID (idNode : NODE_ID_T) : bool :=
  ((97 <=? idNode) && (idNode <=? 121)) || ((65 <=? idNode) && (idNode <=? 89)).

(** [CDependencyGraph::IsValidNodeIndex] *)
Definition IsValidNodeIndex (g : CDependencyGraph) (nIndex : N) : bool :=
  (nIndex <? m_nMaxNodes g)%N.

(** [std::tolower] in the default locale. *)
Definition tolower (c : Z) : Z :=
  if (65 <=? c) && (c <=? 90) then c + 32 else c.

(** [CDependencyGraph::GetNodeIndex] *)
Definition GetNodeIndex (idNode : NODE_ID_T) : N :=
  if IsValidNodeID idNode
  then to_size_t (Z.to_N (tolower idNode - 97))
  else INVALID_NODE_INDEX.

(** [m_vNodes[nIndex]], read.  Every access in the source is guarded by
    [IsValidNodeIndex]; [graph_inv] below makes the guard sufficient. *)
Definition node_at (g : CDependencyGraph) (nIndex : N) : CGraphNode :=
  default CGraphNode_default (m_vNodes g !! N.to_nat nIndex).

(** [CDependencyGraph::AddNode] *)
Definition AddNode (g : CDependencyGraph) (idNode : NODE_ID_T)
  : bool * CDependencyGraph :=
  let nNodeIndex := GetNodeIndex idNode in
  if IsValidNodeIndex g nNodeIndex then
    if negb (IsValid (node_at g nNodeIndex)) then
      (true,
       {| m_nMaxNodes := m_nMaxNodes g;
          m_nNumNodes := to_size_t (m_nNumNodes g + 1);
          m_vNodes := <[N.to_nat nNodeIndex :=
                         SetNodeID (node_at g nNodeIndex) idNode]> (m_vNodes g) |})
    else (false, g)
  else (false, g).

(** [CDependencyGraph::AddEdge] *)
Definition AddEdge (g : CDependencyGraph) (idFromNode idToNode : NODE_ID_T)
    (iWeight : Z) : bool * CDependencyGraph :=
  if IsValidNodeID idFromNode && IsValidNodeID idToNode then
    let nIndex := GetNodeIndex idFromNode in
    if IsValidNodeIndex g nIndex then
      let r := NodeAddEdge (node_at g nIndex) idToNode iWeight in
      (fst r,
       {| m_nMaxNodes := m_nMaxNodes g;
          m_nNumNodes := m_nNumNodes g;
          m_vNodes := <[N.to_nat nIndex := snd r]> (m_vNodes g) |})
    else (false, g)
  else (false, g).

(** [CDependencyGraph::GetNumNodes] *)
Definition GetNumNodes (g : CDependencyGraph) : N := m_nNumNodes g.

(** [CDependencyGraph::GetNumEdges]: the loop over [i < m_nMaxNodes]. *)
Definition GetNumEdges (g : CDependencyGraph) : N :=
  foldl (fun nNumEdges n => to_size_t (nNumEdges + NodeGetNumEdges n)) 0%N
        (take (N.to_nat (m_nMaxNodes g)) (m_vNodes g)).

(** [CDependencyGraph::HasNode] *)
Definition HasNode (g : CDependencyGraph) (idNode : NODE_ID_T) : bool :=
  let nIndex := GetNodeIndex idNode in
  if IsValidNodeIndex g nIndex then IsValid (node_at g nIndex) else false.

(** Calls a client can make on a graph, and the graph after a sequence of
    them on a newly constructed one. *)
Inductive graph_op :=
  | OpAddNode (idNode : NODE_ID_T)
  | OpAddEdge (idFromNode idToNode : NODE_ID_T) (iWeight : Z).

Definition apply_op (g : CDependencyGraph) (op : graph_op) : CDependencyGraph :=
  match op with
  | OpAddNode x => snd (AddNode g x)
  | OpAddEdge a b w => snd (AddEdge g a b w)
  end.

Definition run_ops (g : CDependencyGraph) (ops : list graph_op) : CDependencyGraph :=
  foldl apply_op g ops.

End Graph.

(** ** The pipeline simulator *)

Module Pipeline.

(** [PS_PIPELINE_STATE] *)
Inductive PS_PIPELINE_STATE :=
  | PS_INVALID
  | PS_IF
  | PS_ID
  | PS_EX
  | PS_WB
  | PS_COMPLETED.

(** [typedef TCHAR INSTRUCTION_T] *)
Abbreviation INSTRUCTION_T := Z (only parsing).

Definition INVALID_INSTRUCTION : INSTRUCTION_T := 0.

(** ['-'] *)
Definition NOOP_INSTRUCTION : INSTRUCTION_T := 45.

Definition CONCURRENT_INSTRUCTION_LIMIT : N := 4%N.

(** [CInstructionData] *)
Record CInstructionData := mkInstr {
  m_Instruction : INSTRUCTION_T;
  m_psState : PS_PIPELINE_STATE;
  m_bDataDependent : bool
}.

(** [CInstructionData(instruction, bDataDependent)] *)
Definition CInstructionData_new (instruction : INSTRUCTION_T) (bDataDependent : bool)
  : CInstructionData :=
  {| m_Instruction := instruction;
     m_psState := PS_INVALID;
     m_bDataDependent := bDataDependent |}.

(** [CNoopInstruction()] *)
Definition CNoopInstruction : CInstructionData :=
  {| m_Instruction := NOOP_INSTRUCTION;
     m_psState := PS_INVALID;
     m_bDataDependent := false |}.

(** [CNoopInstruction(psState)] *)
Definition CNoopInstruction_in (psState : PS_PIPELINE_STATE) : CInstructionData :=
  {| m_Instruction := NOOP_INSTRUCTION;
     m_psState := psState;
     m_bDataDependent := false |}.

Definition GetInstruction (x : CInstructionData) : INSTRUCTION_T := m_Instruction x.

Definition GetState (x : CInstructionData) : PS_PIPELINE_STATE := m_psState x.

Definition SetState (x : CInstructionData) (psSet : PS_PIPELINE_STATE)
  : CInstructionData :=
  {| m_Instruction := m_Instruction x;
     m_psState := psSet;
     m_bDataDependent := m_bDataDependent x |}.

Definition IsDataDependent (x : CInstructionData) : bool := m_bDataDependent x.

Definition SetDataDependent (x : CInstructionData) (bSet : bool) : CInstructionData :=
  {| m_Instruction := m_Instruction x;
     m_psState := m_psState x;
     m_bDataDependent := bSet |}.

Definition IsNOOP (x : CInstructionData) : bool :=
  m_Instruction x =? NOOP_INSTRUCTION.

(** [CPipelineSim] *)
Record CPipelineSim := mkSim {
  m_dwCycle : N;
  m_dwStallCtr : N;
  m_dwCompletedCtr : N;
  m_dwMaxPipelineDepth : N;
  m_lstInstructionPipeline : list CInstructionData;
  m_queInstructions : list CInstructionData
}.

(** [CPipelineSim::CPipelineSim()] *)
Definition CPipelineSim_new : CPipelineSim :=
  {| m_dwCycle := 0%N;
     m_dwStallCtr := 0%N;
     m_dwCompletedCtr := 0%N;
     m_dwMaxPipelineDepth := CONCURRENT_INSTRUCTION_LIMIT;
     m_lstInstructionPipeline := [];
     m_queInstructions := [] |}.

Definition GetCycle (s : CPipelineSim) : N := m_dwCycle s.
Definition GetStallCount (s : CPipelineSim) : N := m_dwStallCtr s.
Definition GetCompletionCount (s : CPipelineSim) : N := m_dwCompletedCtr s.

(** [CPipelineSim::InsertInstruction]: the new queue length and the simulator. *)
Definition InsertInstruction (s : CPipelineSim) (instruction : CInstructionData)
  : N * CPipelineSim :=
  let que := m_queInstructions s ++ [instruction] in
  (N.of_nat (length que),
   {| m_dwCycle := m_dwCycle s;
      m_dwStallCtr := m_dwStallCtr s;
      m_dwCompletedCtr := m_dwCompletedCtr s;
      m_dwMaxPipelineDepth := m_dwMaxPipelineDepth s;
      m_lstInstructionPipeline := m_lstInstructionPipeline s;
      m_queInstructions := que |}).

(** *** ProcessNextCycle, in three parts *)

(** The admission block: the pipeline list, the queue and [bReturn] after it. *)
Definition admission (s : CPipelineSim)
  : list CInstructionData * list CInstructionData * bool :=
  if (N.of_nat (length (m_lstInstructionPipeline s)) <=? m_dwMaxPipelineDepth s)%N then
    match m_queInstructions s with
    | instruction :: que =>
        (instruction :: m_lstInstructionPipeline s, que, true)
    | [] =>
        (CNoopInstruction :: m_lstInstructionPipeline s, [], false)
    end
  else (m_lstInstructionPipeline s, m_queInstructions s, false).

(** The variables the [for] loop updates besides the list. *)
Record loop_vars := mkVars {
  bReturn : bool;
  bStalled : bool;
  dwStallCtr : N;
  dwCompletedCtr : N
}.

Definition note_progress (x : CInstructionData) (v : loop_vars) : loop_vars :=
  if negb (IsNOOP x)
  then {| bReturn := true; bStalled := bStalled v;
          dwStallCtr := dwStallCtr v; dwCompletedCtr := dwCompletedCtr v |}
  else v.

(** The body of the loop at the record [x] that [itr] designates.  The result
    lists, oldest first, what stands in the place of [x] afterwards.

    In the stall branch [insert(itr.base(), NOOP)] puts the bubble between [x]
    and the next older record.  A reverse iterator designates the element just
    before its base, and the base has not moved, so from the insertion on
    [itr] designates the bubble: the test [itr->IsNOOP()] that closes the
    [PS_ID] case reads the bubble there. *)
Definition loop_body (x : CInstructionData) (v : loop_vars)
  : list CInstructionData * loop_vars :=
  match GetState x with
  | PS_INVALID =>
      let x' := SetState x PS_IF in ([x'], note_progress x' v)
  | PS_IF =>
      let x' := SetState x PS_ID in ([x'], note_progress x' v)
  | PS_ID =>
      if IsDataDependent x then
        let x' := SetDataDependent x false in
        let NOOP := CNoopInstruction_in PS_EX in
        let v' := {| bReturn := bReturn v; bStalled := true;
                     dwStallCtr := dword_inc (dwStallCtr v);
                     dwCompletedCtr := dwCompletedCtr v |} in
        ([NOOP; x'], note_progress NOOP v')
      else
        let x' := SetState x PS_EX in ([x'], note_progress x' v)
  | PS_EX =>
      let x' := SetState x PS_WB in ([x'], note_progress x' v)
  | PS_WB =>
      let x' := SetState x PS_COMPLETED in
      ([x'],
       if negb (IsNOOP x')
       then {| bReturn := bReturn v; bStalled := bStalled v;
               dwStallCtr := dwStallCtr v;
               dwCompletedCtr := dword_inc (dwCompletedCtr v) |}
       else v)
  | PS_COMPLETED => ([x], v)
  end.

(** The [for] loop over the records still to visit, oldest first; the
    condition [bStalled == false] is tested before each iteration. *)
Fixpoint stage_loop (todo : list CInstructionData) (v : loop_vars)
  : list CInstructionData * loop_vars :=
  match todo with
  | [] => ([], v)
  | x :: rest =>
      if bStalled v then (todo, v)
      else
        let '(out, v1) := loop_body x v in
        let '(rest', v2) := stage_loop rest v1 in
        (out ++ rest', v2)
  end.

(** [back()] of a list: undefined on an empty one. *)
Definition back (l : list CInstructionData) : option CInstructionData := last l.

(** [pop_back()] *)
Definition pop_back (l : list CInstructionData) : list CInstructionData :=
  removelast l.

Definition is_completed (x : CInstructionData) : bool :=
  match GetState x with PS_COMPLETED => true | _ => false end.

(** [CPipelineSim::ProcessNextCycle]: the returned flag and the simulator
    afterwards; [None] stands for [back()] called on an empty list. *)
Definition ProcessNextCycle (s : CPipelineSim) : option (bool * CPipelineSim) :=
  let dwCycle := dword_inc (m_dwCycle s) in
  let '(lst, que, bRet) := admission s in
  let '(visited, v) :=
    stage_loop (rev lst)
      {| bReturn := bRet; bStalled := false;
         dwStallCtr := m_dwStallCtr s; dwCompletedCtr := m_dwCompletedCtr s |} in
  let lst' := rev visited in
  match back lst' with
  | None => None
  | Some oldest =>
      Some (bReturn v,
            {| m_dwCycle := dwCycle;
               m_dwStallCtr := dwStallCtr v;
               m_dwCompletedCtr := dwCompletedCtr v;
               m_dwMaxPipelineDepth := m_dwMaxPipelineDepth s;
               m_lstInstructionPipeline :=
                 if is_completed oldest then pop_back lst' else lst';
               m_queInstructions := que |})
  end.

(** *** Repeated calls *)

(** The simulator after queueing [instrs] in order. *)
Definition insert_all (s : CPipelineSim) (instrs : list CInstructionData)
  : CPipelineSim :=
  foldl (fun s x => snd (InsertInstruction s x)) s instrs.

(** [n] successive calls: the flags returned, first call first, and the
    simulator after the last one. *)
Fixpoint calls (n : nat) (s : CPipelineSim) : option (list bool * CPipelineSim) :=
  match n with
  | O => Some ([], s)
  | S n' =>
      match ProcessNextCycle s with
      | None => None
      | Some (b, s') =>
          match calls n' s' with
          | None => None
          | Some (bs, s'') => Some (b :: bs, s'')
          end
      end
  end.

End Pipeline.

(** ** The driver (Pipeline_Main.cpp) *)

Module Driver.

Import Graph Pipeline.

Definition MAX_INSTRUCTIONS : nat := 25.

Definition BASE_CYCLES_PER_INSTUCTION : Z := 4.

(** [LoadData] on the text already split into tokens: [tokens] holds the first
    character of each instruction token of the first line, [pairs] the
    dependency pairs of the following lines.  Reading the file is outside the
    model.  The result is the number of tokens consumed and the graph. *)
Definition LoadData (tokens : list Z) (pairs : list (Z * Z)) (dag : CDependencyGraph)
  : nat * CDependencyGraph :=
  let read := take MAX_INSTRUCTIONS tokens in
  let dag1 := foldl (fun d c => snd (AddNode d c)) dag read in
  let dag2 :=
    foldl (fun d '(idSrcNode, idDestNode) =>
             let iWeight := idSrcNode - idDestNode in
             snd (AddEdge d idSrcNode idDestNode iWeight))
          dag1 pairs in
  (length read, dag2).

(** The test [it->HasEdge(idNode - 1)] both loops of the driver apply to a
    valid node. *)
Definition depends_on_previous (it : CGraphNode) : bool :=
  let idNode := GetNodeID it in HasEdge it (idNode - 1).

(** [CalculateNumberOfStallsRequired] *)
Definition CalculateNumberOfStallsRequired (dag : CDependencyGraph) : Z :=
  foldl (fun iNumStalls it =>
           if IsValid it then
             if depends_on_previous it then iNumStalls + 1 else iNumStalls
           else iNumStalls)
        0 (m_vNodes dag).

Definition CalculateSequentialExecutionCycles (dag : CDependencyGraph) : Z :=
  Z.of_N (GetNumNodes dag) * BASE_CYCLES_PER_INSTUCTION.

Definition CalculateCompleteOverlappedExecutionCycles (dag : CDependencyGraph) : Z :=
  Z.of_N (GetNumNodes dag) + 3.

Definition CalculatePartialOverlappedExecutionCycles (dag : CDependencyGraph) : Z :=
  Z.of_N (GetNumNodes dag) + CalculateNumberOfStallsRequired dag + 3.

(** The first loop of [ExecutePipelineSimulation]: queue every valid node. *)
Definition queue_instructions (sim : CPipelineSim) (dag : CDependencyGraph)
  : CPipelineSim :=
  foldl (fun sim it =>
           if IsValid it then
             let bDataDependent := if depends_on_previous it then true else false in
             let idNode := GetNodeID it in
             snd (InsertInstruction sim (CInstructionData_new idNode bDataDependent))
           else sim)
        sim (m_vNodes dag).

(** The polling loop of [ExecutePipelineSimulation]: call [ProcessNextCycle]
    until it returns false.  The result is the number of snapshots written
    (one per call that returned true) and the simulator after the call that
    returned false; [None] when [fuel] calls were not enough, or when a call
    was undefined. *)
Fixpoint poll (fuel : nat) (sim : CPipelineSim) : option (nat * CPipelineSim) :=
  match fuel with
  | O => None
  | S fuel' =>
      match ProcessNextCycle sim with
      | None => None
      | Some (false, sim') => Some (O, sim')
      | Some (true, sim') =>
          match poll fuel' sim' with
          | None => None
          | Some (n, sim'') => Some (S n, sim'')
          end
      end
  end.

(** [ExecutePipelineSimulation], without the console output. *)
Definition ExecutePipelineSimulation (fuel : nat) (sim : CPipelineSim)
    (dag : CDependencyGraph) : option (nat * CPipelineSim) :=
  poll fuel (queue_instructions sim dag).

End Driver.

(** ** Notions used to state the properties *)

Module GraphSpec.

Import Graph.

(** Number of slots holding a valid node. *)
Fixpoint count_valid (l : list CGraphNode) : nat :=
  match l with
  | [] => O
  | n :: l' => ((if IsValid n then 1 else 0) + count_valid l')%nat
  end.

(** What holds of every graph a client can build: the vector has
    [m_nMaxNodes] slots, a valid node sits in the slot its identity maps to,
    edges lead to identities of the alphabet and leave valid nodes only, and
    [m_nNumNodes] counts the valid slots. *)
Record graph_inv (g : CDependencyGraph) : Prop := mkGraphInv {
  inv_length : length (m_vNodes g) = N.to_nat (m_nMaxNodes g);
  inv_max : (m_nMaxNodes g < SIZE_MODULUS)%N;
  inv_slot : forall i n, m_vNodes g !! i = Some n -> IsValid n = true ->
               IsValidNodeID (m_ID n) = true /\ GetNodeIndex (m_ID n) = N.of_nat i;
  inv_edges : forall i n d, m_vNodes g !! i = Some n ->
               is_Some (m_setEdges n !! d) ->
               IsValidNodeID d = true /\ IsValid n = true;
  inv_count : m_nNumNodes g = N.of_nat (count_valid (m_vNodes g))
}.

(** Every edge of the graph leads to a node that has been added. *)
Definition edges_closed (g : CDependencyGraph) : bool :=
  forallb (fun n => forallb (fun e => HasNode g (fst e)) (map_to_list (m_setEdges n)))
          (m_vNodes g).

(** The sum [GetNumEdges] accumulates, without the [size_t] arithmetic. *)
Fixpoint sum_edges (l : list CGraphNode) : N :=
  match l with
  | [] => 0%N
  | n :: l' => (NodeGetNumEdges n + sum_edges l')%N
  end.

(** The identities of the alphabet, as a set. *)
Definition alphabet : gset Z :=
  list_to_set (seqZ 65 25 ++ seqZ 97 25).

End GraphSpec.

Module PipelineSpec.

Import Pipeline.

(** A record that is not a bubble. *)
Definition real (x : CInstructionData) : bool := negb (IsNOOP x).

(** The stage order. *)
Definition next_state (st : PS_PIPELINE_STATE) : PS_PIPELINE_STATE :=
  match st with
  | PS_INVALID => PS_IF
  | PS_IF => PS_ID
  | PS_ID => PS_EX
  | PS_EX => PS_WB
  | PS_WB => PS_COMPLETED
  | PS_COMPLETED => PS_COMPLETED
  end.

(** A record moved to its next stage. *)
Definition advance (x : CInstructionData) : CInstructionData :=
  SetState x (next_state (GetState x)).

(** The record is in Decode with its flag set: visiting it injects a stall. *)
Definition stalls_here (x : CInstructionData) : bool :=
  match GetState x with
  | PS_ID => IsDataDependent x
  | _ => false
  end.

(** A non-bubble record in a stage from which a visit moves it to Fetch,
    Decode, Execute or WriteBack. *)
Definition moves_on (x : CInstructionData) : bool :=
  real x &&
  match GetState x with
  | PS_INVALID | PS_IF | PS_ID | PS_EX => true
  | PS_WB | PS_COMPLETED => false
  end.

(** A non-bubble record in WriteBack: visiting it counts a completion. *)
Definition completes (x : CInstructionData) : bool :=
  real x && match GetState x with PS_WB => true | _ => false end.

Fixpoint count_where (p : CInstructionData -> bool) (l : list CInstructionData) : nat :=
  match l with
  | [] => O
  | x :: l' => ((if p x then 1 else 0) + count_where p l')%nat
  end.

(** The completion counter after visiting the records of [l], none of which
    stalls, starting from [co]. *)
Fixpoint completions_in (co : N) (l : list CInstructionData) : N :=
  match l with
  | [] => co
  | x :: l' => completions_in (if completes x then dword_inc co else co) l'
  end.

(** No record of [l] injects a stall when visited. *)
Definition no_stall (l : list CInstructionData) : bool :=
  forallb (fun x => negb (stalls_here x)) l.

(** Number of records whose data-dependence flag is set. *)
Definition flagged_count (l : list CInstructionData) : nat :=
  count_where IsDataDependent l.

(** The retirement step on the list. *)
Definition retire (l : list CInstructionData) : list CInstructionData :=
  match back l with
  | Some oldest => if is_completed oldest then pop_back l else l
  | None => l
  end.

(** Stage moves a record still has to make before WriteBack. *)
Definition remaining (st : PS_PIPELINE_STATE) : nat :=
  match st with
  | PS_INVALID => 4
  | PS_IF => 3
  | PS_ID => 2
  | PS_EX => 1
  | PS_WB | PS_COMPLETED => 0
  end.

Definition weight (x : CInstructionData) : nat :=
  if IsNOOP x then O else remaining (GetState x).

Fixpoint total_weight (l : list CInstructionData) : nat :=
  match l with
  | [] => O
  | x :: l' => (weight x + total_weight l')%nat
  end.

(** A bound on the number of calls that can still return true. *)
Definition work (s : CPipelineSim) : nat :=
  (total_weight (m_lstInstructionPipeline s)
   + total_weight (m_queInstructions s)
   + length (m_queInstructions s))%nat.

(** Calls a client can make on a simulator, and the simulator after a
    sequence of them; [None] when a call was undefined. *)
Inductive sim_op :=
  | OpInsert (instruction : CInstructionData)
  | OpCycle.

Fixpoint run_sim (s : CPipelineSim) (ops : list sim_op) : option CPipelineSim :=
  match ops with
  | [] => Some s
  | OpInsert x :: ops' => run_sim (snd (InsertInstruction s x)) ops'
  | OpCycle :: ops' =>
      match ProcessNextCycle s with
      | None => None
      | Some (_, s') => run_sim s' ops'
      end
  end.

(** *** The states of a run fed by the driver *)

(** The stages found in the list between two calls: the four stages in
    order, newest record first, or, right after a stall, a record that has not
    been fetched yet in front of the dependent record held in Decode, the
    bubble and the record in WriteBack. *)
Inductive shape : list CInstructionData -> Prop :=
  | shape_0 : shape []
  | shape_1 i1 f1 : shape [mkInstr i1 PS_IF f1]
  | shape_2 i1 f1 i2 f2 : shape [mkInstr i1 PS_IF f1; mkInstr i2 PS_ID f2]
  | shape_3 i1 f1 i2 f2 i3 :
      shape [mkInstr i1 PS_IF f1; mkInstr i2 PS_ID f2; mkInstr i3 PS_EX false]
  | shape_4 i1 f1 i2 f2 i3 i4 :
      shape [mkInstr i1 PS_IF f1; mkInstr i2 PS_ID f2; mkInstr i3 PS_EX false;
             mkInstr i4 PS_WB false]
  | shape_stalled i0 f0 i1 f1 i2 i3 i4 :
      shape [mkInstr i0 PS_INVALID f0; mkInstr i1 PS_IF f1;
             mkInstr i2 PS_ID false; mkInstr i3 PS_EX false;
             mkInstr i4 PS_WB false].

(** Along a sequence in program order, oldest first, every flagged record
    directly follows a non-bubble record; [prev] tells whether the record
    before the sequence is one. *)
Fixpoint flag_ok (prev : bool) (l : list CInstructionData) : bool :=
  match l with
  | [] => true
  | x :: l' => implb (IsDataDependent x) prev && flag_ok (real x) l'
  end.

(** A queued record as the driver builds it: not a bubble, not fetched yet. *)
Definition fresh_instr (x : CInstructionData) : bool :=
  real x && match GetState x with PS_INVALID => true | _ => false end.

(** A bubble never carries the data-dependence flag. *)
Definition bubble_unflagged (x : CInstructionData) : bool :=
  implb (IsNOOP x) (negb (IsDataDependent x)).

(** While instructions are still queued, the newest record of the list is
    not a bubble. *)
Definition front_real (lst que : list CInstructionData) : bool :=
  match lst with
  | [] => true
  | x :: _ => real x || match que with [] => true | _ :: _ => false end
  end.

(** What holds between two calls of a run fed by the driver: the depth is
    the one the constructor sets, the list has one of the shapes above, the
    queue holds instructions not fetched yet, bubbles carry no flag, and a
    flagged record directly follows an instruction. *)
Record sim_inv (s : CPipelineSim) : Prop := mkSimInv {
  inv_depth : m_dwMaxPipelineDepth s = CONCURRENT_INSTRUCTION_LIMIT;
  inv_shape : shape (m_lstInstructionPipeline s);
  inv_queue : forallb fresh_instr (m_queInstructions s) = true;
  inv_bubbles : forallb bubble_unflagged (m_lstInstructionPipeline s) = true;
  inv_flags : flag_ok false (rev (m_lstInstructionPipeline s) ++ m_queInstructions s) = true;
  inv_front : front_real (m_lstInstructionPipeline s) (m_queInstructions s) = true
}.

(** Stage moves left for the newest non-bubble record of the list. *)
Fixpoint newest_remaining (l : list CInstructionData) : nat :=
  match l with
  | [] => O
  | x :: l' => if IsNOOP x then newest_remaining l' else remaining (GetState x)
  end.

(** Flags still set, in flight or queued: the stalls still to come. *)
Definition flags_left (s : CPipelineSim) : nat :=
  (flagged_count (m_lstInstructionPipeline s)
   + flagged_count (m_queInstructions s))%nat.

(** The number of calls that will still return true: one per flag still
    set, one per queued instruction, and the stage moves left for the newest
    instruction (three for the first one to enter an empty pipeline). *)
Definition calls_left (s : CPipelineSim) : nat :=
  (flags_left s + length (m_queInstructions s) +
   match m_lstInstructionPipeline s with
   | [] => match m_queInstructions s with [] => 0 | _ :: _ => 3 end
   | _ :: _ => newest_remaining (m_lstInstructionPipeline s)
   end)%nat.

(** How the stall counter and the number of flags still set change in one
    call. *)
Definition stall_step (s s' : CPipelineSim) : Prop :=
  (m_dwStallCtr s' = m_dwStallCtr s /\ flags_left s' = flags_left s) \/
  (m_dwStallCtr s' = dword_inc (m_dwStallCtr s) /\
   S (flags_left s') = flags_left s).

End PipelineSpec.

Module DriverSpec.

Import Graph Pipeline Driver.

(** The records the driver queues for a node vector, in queueing order. *)
Fixpoint instructions_of (l : list CGraphNode) : list CInstructionData :=
  match l with
  | [] => []
  | it :: l' =>
      if IsValid it
      then CInstructionData_new (GetNodeID it) (depends_on_previous it)
           :: instructions_of l'
      else instructions_of l'
  end.

End DriverSpec.

(** ** Further operations of the sources *)

Module GraphMore.

Import Graph.

(** [CDirectedEdgeData::operator<] *)
Definition edge_lt (lhs rhs : CDirectedEdgeData) : bool :=
  m_idDestNode lhs <? m_idDestNode rhs.

(** [CDirectedEdgeData::operator==] *)
Definition edge_eq (lhs rhs : CDirectedEdgeData) : bool :=
  m_idDestNode lhs =? m_idDestNode rhs.

(** [CDirectedEdgeData::operator>] *)
Definition edge_gt (lhs rhs : CDirectedEdgeData) : bool :=
  m_idDestNode lhs >? m_idDestNode rhs.

(** The result a call returns. *)
Definition op_result (g : CDependencyGraph) (op : graph_op) : bool :=
  match op with
  | OpAddNode x => fst (AddNode g x)
  | OpAddEdge a b w => fst (AddEdge g a b w)
  end.

(** How many [AddNode] calls and how many [AddEdge] calls of a sequence
    return true. *)
Fixpoint successes (g : CDependencyGraph) (ops : list graph_op) : N * N :=
  match ops with
  | [] => (0%N, 0%N)
  | op :: ops' =>
      let r := successes (apply_op g op) ops' in
      match op with
      | OpAddNode _ => ((if op_result g op then 1 else 0) + fst r, snd r)%N
      | OpAddEdge _ _ _ => (fst r, (if op_result g op then 1 else 0) + snd r)%N
      end
  end.

End GraphMore.

Module PipelineMore.

Import Pipeline.

(** The stages [OutputCurrentInstructionCycle] prints. *)
Definition is_shown (x : CInstructionData) : bool :=
  match GetState x with
  | PS_IF | PS_ID | PS_EX | PS_WB => true
  | PS_INVALID | PS_COMPLETED => false
  end.

(** The loop of [OutputCurrentInstructionCycle]: the characters written for
    the records of the list, front first; [32] is the blank. *)
Fixpoint output_records (l : list CInstructionData) : list Z :=
  match l with
  | [] => []
  | it :: l' =>
      (if is_shown it then [GetInstruction it; 32] else []) ++ output_records l'
  end.

(** [CPipelineSim::OutputCurrentInstructionCycle]: the characters written to
    the stream, ending with the newline of [std::endl]. *)
Definition OutputCurrentInstructionCycle (s : CPipelineSim) : list Z :=
  output_records (m_lstInstructionPipeline s) ++ [10].

(** The records in program order, oldest first: those in flight, then those
    still queued. *)
Definition program_order (s : CPipelineSim) : list CInstructionData :=
  rev (m_lstInstructionPipeline s) ++ m_queInstructions s.

(** The identities of the records that are not bubbles. *)
Fixpoint instruction_ids (l : list CInstructionData) : list Z :=
  match l with
  | [] => []
  | x :: l' =>
      if IsNOOP x then instruction_ids l' else GetInstruction x :: instruction_ids l'
  end.

(** A non-bubble record that has not reached Completed. *)
Definition is_unfinished (x : CInstructionData) : bool :=
  negb (IsNOOP x) && negb (is_completed x).

Fixpoint unfinished_count (l : list CInstructionData) : nat :=
  match l with
  | [] => O
  | x :: l' => ((if is_unfinished x then 1 else 0) + unfinished_count l')%nat
  end.

(** Instructions that have not completed yet, in flight or queued. *)
Definition unfinished (s : CPipelineSim) : nat :=
  unfinished_count (program_order s).

(** The symbol that record [i] of the instruction stream carries: the
    identities queued, then bubbles for ever. *)
Definition stream (ids : list Z) (i : nat) : Z := nth i ids NOOP_INSTRUCTION.

(** The pipeline diagram of a run without stalls: after call [j], the
    records fetched at calls [j], [j - 1], [j - 2] and [j - 3] stand in Fetch,
    Decode, Execute and WriteBack. *)
Definition diagram_row (ids : list Z) (j : nat) : list CInstructionData :=
  take j [mkInstr (stream ids (j - 1)) PS_IF false;
          mkInstr (stream ids (j - 2)) PS_ID false;
          mkInstr (stream ids (j - 3)) PS_EX false;
          mkInstr (stream ids (j - 4)) PS_WB false].

End PipelineMore.

(** * Properties *)

(** ** Facts about the dependency graph *)

Module GraphFacts.

Import Graph GraphSpec.

Lemma valid_id_bounds x :
  IsValidNodeID x = true <-> (97 <= x <= 121) \/ (65 <= x <= 89).
Proof. unfold IsValidNodeID. lia. Qed.

Lemma index_of_valid x :
  IsValidNodeID x = true ->
  GetNodeIndex x = Z.to_N (tolower x - 97) /\ (GetNodeIndex x < 25)%N.
Proof.
  intros H. unfold GetNodeIndex. rewrite H. apply valid_id_bounds in H.
  assert (Hb : (Z.to_N (tolower x - 97) < 25)%N) by (unfold tolower; destruct ((65 <=? x) && (x <=? 90)) eqn:E; lia).
  unfold to_size_t, SIZE_MODULUS. rewrite N.mod_small; [auto | lia].
Qed.

Lemma index_of_invalid x :
  IsValidNodeID x = false -> GetNodeIndex x = INVALID_NODE_INDEX.
Proof. intros H. unfold GetNodeIndex. now rewrite H. Qed.

Lemma invalid_index_rejected g :
  (m_nMaxNodes g < SIZE_MODULUS)%N -> IsValidNodeIndex g INVALID_NODE_INDEX = false.
Proof.
  unfold IsValidNodeIndex, INVALID_NODE_INDEX. intros H.
  apply N.ltb_ge. lia.
Qed.

Lemma to_size_t_lt n : (to_size_t n < SIZE_MODULUS)%N.
Proof. unfold to_size_t. apply N.mod_lt. discriminate. Qed.

Lemma to_size_t_small n : (n <= 4096)%N -> to_size_t n = n.
Proof.
  intros H. apply N.mod_small. eapply N.le_lt_trans; [exact H | reflexivity].
Qed.

Lemma count_valid_replicate n : count_valid (replicate n CGraphNode_default) = O.
Proof. induction n; simpl; auto. Qed.

Lemma count_valid_insert l i n' :
  forall n, l !! i = Some n ->
  (count_valid (<[i:=n']> l) + (if IsValid n then 1 else 0)
   = count_valid l + (if IsValid n' then 1 else 0))%nat.
Proof.
  revert i. induction l as [|a l IH]; intros [|i] n Hl; simpl in *; try discriminate.
  - injection Hl as ->. lia.
  - specialize (IH i n Hl). lia.
Qed.

Lemma sum_edges_insert l i n' :
  forall n, l !! i = Some n ->
  (sum_edges (<[i:=n']> l) + NodeGetNumEdges n
   = sum_edges l + NodeGetNumEdges n')%N.
Proof.
  revert i. induction l as [|a l IH]; intros [|i] n Hl; simpl in *; try discriminate.
  - injection Hl as ->. lia.
  - specialize (IH i n Hl). lia.
Qed.

Lemma node_at_lookup g i :
  (N.to_nat i < length (m_vNodes g))%nat ->
  m_vNodes g !! N.to_nat i = Some (node_at g i).
Proof.
  intros H. unfold node_at. destruct (lookup_lt_is_Some_2 _ _ H) as [n Hn].
  now rewrite Hn.
Qed.

Lemma graph_inv_new n : graph_inv (CDependencyGraph_new n).
Proof.
  constructor; simpl.
  - now rewrite length_replicate.
  - apply to_size_t_lt.
  - intros i m Hm Hv. apply lookup_replicate_1 in Hm as [-> _]. discriminate.
  - intros i m d Hm [w Hw]. apply lookup_replicate_1 in Hm as [-> _].
    simpl in Hw. now rewrite lookup_empty in Hw.
  - now rewrite count_valid_replicate.
Qed.


Lemma count_valid_bound l : forall k,
  (forall i n, l !! i = Some n -> IsValid n = true -> (i < k)%nat) ->
  (count_valid l <= k)%nat.
Proof.
  induction l as [|a l IH]; intros k H; simpl; [lia|].
  destruct k as [|k].
  - destruct (IsValid a) eqn:Ha.
    + specialize (H O a eq_refl Ha). lia.
    + assert (count_valid l <= 0)%nat; [|lia].
      apply IH. intros i n Hi Hn. specialize (H (S i) n Hi Hn). lia.
  - assert (count_valid l <= k)%nat.
    { apply IH. intros i n Hi Hn. specialize (H (S i) n Hi Hn). lia. }
    destruct (IsValid a); lia.
Qed.

Lemma valid_slot_lt g i n :
  graph_inv g -> m_vNodes g !! i = Some n -> IsValid n = true -> (i < 25)%nat.
Proof.
  intros Hg Hi Hn. destruct (inv_slot g Hg i n Hi Hn) as [Hv Hx].
  destruct (index_of_valid _ Hv) as [_ Hlt]. lia.
Qed.

Lemma num_nodes_bound g : graph_inv g -> (m_nNumNodes g <= 25)%N.
Proof.
  intros Hg. rewrite (inv_count g Hg).
  assert (count_valid (m_vNodes g) <= 25)%nat; [|lia].
  apply count_valid_bound. intros i n. apply valid_slot_lt; assumption.
Qed.

Lemma valid_index_in_range g i :
  graph_inv g -> IsValidNodeIndex g i = true ->
  (N.to_nat i < length (m_vNodes g))%nat.
Proof.
  intros Hg H. rewrite (inv_length g Hg). unfold IsValidNodeIndex in H.
  apply N.ltb_lt in H. lia.
Qed.

Lemma valid_index_valid_id g x :
  graph_inv g -> IsValidNodeIndex g (GetNodeIndex x) = true ->
  IsValidNodeID x = true.
Proof.
  intros Hg H. destruct (IsValidNodeID x) eqn:Hx; [reflexivity|].
  rewrite (index_of_invalid _ Hx), (invalid_index_rejected g (inv_max g Hg)) in H.
  discriminate.
Qed.

(** What [AddNode] does, case by case. *)
Lemma AddNode_cases g x :
  graph_inv g ->
  (HasNode g x = false /\ IsValidNodeIndex g (GetNodeIndex x) = true /\
   IsValidNodeID x = true /\
   AddNode g x =
     (true, {| m_nMaxNodes := m_nMaxNodes g;
               m_nNumNodes := (m_nNumNodes g + 1)%N;
               m_vNodes := <[N.to_nat (GetNodeIndex x) :=
                  SetNodeID (node_at g (GetNodeIndex x)) x]> (m_vNodes g) |}))
  \/
  ((HasNode g x = true \/ IsValidNodeIndex g (GetNodeIndex x) = false) /\
   AddNode g x = (false, g)).
Proof.
  intros Hg. unfold AddNode, HasNode.
  destruct (IsValidNodeIndex g (GetNodeIndex x)) eqn:Hi; [|right; auto].
  destruct (IsValid (node_at g (GetNodeIndex x))) eqn:Hv; simpl; [right; auto|].
  left. repeat split; auto.
  - eapply valid_index_valid_id; eauto.
  - do 2 f_equal. pose proof (num_nodes_bound g Hg). apply to_size_t_small. lia.
Qed.

Lemma graph_inv_AddNode g x : graph_inv g -> graph_inv (snd (AddNode g x)).
Proof.
  intros Hg. destruct (AddNode_cases g x Hg) as [(Hn & Hi & Hx & ->)|[_ ->]]; [|exact Hg].
  pose proof (valid_index_in_range g _ Hg Hi) as Hlt.
  pose proof (node_at_lookup g _ Hlt) as Hat.
  unfold HasNode in Hn. rewrite Hi in Hn.
  constructor; simpl.
  - rewrite length_insert. apply (inv_length g Hg).
  - apply (inv_max g Hg).
  - intros i n Hl Hv.
    destruct (decide (i = N.to_nat (GetNodeIndex x))) as [->|Hne].
    + rewrite list_lookup_insert_eq in Hl by assumption. injection Hl as <-.
      simpl. split; [assumption | lia].
    + rewrite list_lookup_insert_ne in Hl by congruence.
      exact (inv_slot g Hg i n Hl Hv).
  - intros i n d Hl Hd.
    destruct (decide (i = N.to_nat (GetNodeIndex x))) as [->|Hne].
    + rewrite list_lookup_insert_eq in Hl by assumption. injection Hl as <-.
      simpl in Hd. destruct (inv_edges g Hg _ _ d Hat Hd) as [_ Hbad]. congruence.
    + rewrite list_lookup_insert_ne in Hl by congruence.
      exact (inv_edges g Hg i n d Hl Hd).
  - pose proof (count_valid_insert (m_vNodes g) _
                  (SetNodeID (node_at g (GetNodeIndex x)) x) _ Hat) as Hc.
    rewrite Hn in Hc.
    assert (IsValid (SetNodeID (node_at g (GetNodeIndex x)) x) = true) as Hv.
    { unfold IsValid, INVALID_NODE_ID. simpl. apply valid_id_bounds in Hx. lia. }
    rewrite Hv in Hc. rewrite (inv_count g Hg). lia.
Qed.

(** What [AddEdge] does, case by case. *)
Lemma AddEdge_cases g a b w :
  graph_inv g ->
  (IsValidNodeID a = true /\ IsValidNodeID b = true /\ HasNode g a = true /\
   HasEdge (node_at g (GetNodeIndex a)) b = false /\
   AddEdge g a b w =
     (true, {| m_nMaxNodes := m_nMaxNodes g;
               m_nNumNodes := m_nNumNodes g;
               m_vNodes := <[N.to_nat (GetNodeIndex a) :=
                  {| m_ID := m_ID (node_at g (GetNodeIndex a));
                     m_setEdges := <[b:=w]> (m_setEdges (node_at g (GetNodeIndex a))) |}]>
                  (m_vNodes g) |}))
  \/
  ((IsValidNodeID a = false \/ IsValidNodeID b = false \/ HasNode g a = false \/
    HasEdge (node_at g (GetNodeIndex a)) b = true) /\
   AddEdge g a b w = (false, g)).
Proof.
  intros Hg. unfold AddEdge, HasNode.
  destruct (IsValidNodeID a) eqn:Ha; simpl; [|right; auto].
  destruct (IsValidNodeID b) eqn:Hb; simpl; [|right; auto].
  destruct (IsValidNodeIndex g (GetNodeIndex a)) eqn:Hi; [|right; auto].
  pose proof (valid_index_in_range g _ Hg Hi) as Hlt.
  pose proof (node_at_lookup g _ Hlt) as Hat.
  unfold NodeAddEdge, NodeAddEdgeData, HasEdge, set_insert. simpl.
  destruct (IsValid (node_at g (GetNodeIndex a))) eqn:Hv; simpl.
  - destruct (m_setEdges (node_at g (GetNodeIndex a)) !! b) eqn:He; simpl.
    + right. split; [auto|]. f_equal. destruct g as [mx nn vs]; simpl in *. f_equal.
      apply list_insert_id. rewrite Hat. now destruct (node_at _ _).
    + left. auto.
  - right. split; [auto|]. f_equal. destruct g as [mx nn vs]; simpl in *. f_equal.
    now apply list_insert_id.
Qed.

Lemma graph_inv_AddEdge g a b w : graph_inv g -> graph_inv (snd (AddEdge g a b w)).
Proof.
  intros Hg.
  destruct (AddEdge_cases g a b w Hg) as [(Ha & Hb & Hn & He & ->)|[_ ->]]; [|exact Hg].
  unfold HasNode in Hn.
  destruct (IsValidNodeIndex g (GetNodeIndex a)) eqn:Hi; [|discriminate].
  pose proof (valid_index_in_range g _ Hg Hi) as Hlt.
  pose proof (node_at_lookup g _ Hlt) as Hat.
  constructor; simpl.
  - rewrite length_insert. apply (inv_length g Hg).
  - apply (inv_max g Hg).
  - intros i n Hl Hv.
    destruct (decide (i = N.to_nat (GetNodeIndex a))) as [->|Hne].
    + rewrite list_lookup_insert_eq in Hl by assumption. injection Hl as <-.
      simpl. exact (inv_slot g Hg _ _ Hat Hn).
    + rewrite list_lookup_insert_ne in Hl by congruence.
      exact (inv_slot g Hg i n Hl Hv).
  - intros i n d Hl Hd.
    destruct (decide (i = N.to_nat (GetNodeIndex a))) as [->|Hne].
    + rewrite list_lookup_insert_eq in Hl by assumption. injection Hl as <-.
      simpl in *. split; [|exact Hn].
      destruct (decide (b = d)) as [<-|Hbd]; [assumption|].
      rewrite lookup_insert_ne in Hd by assumption.
      exact (proj1 (inv_edges g Hg _ _ d Hat Hd)).
    + rewrite list_lookup_insert_ne in Hl by congruence.
      exact (inv_edges g Hg i n d Hl Hd).
  - pose proof (count_valid_insert (m_vNodes g) _
       {| m_ID := m_ID (node_at g (GetNodeIndex a));
          m_setEdges := <[b:=w]> (m_setEdges (node_at g (GetNodeIndex a))) |} _ Hat) as Hc.
    unfold IsValid in Hc at 2. simpl in Hc. fold (IsValid (node_at g (GetNodeIndex a))) in Hc.
    rewrite (inv_count g Hg). lia.
Qed.

Lemma graph_inv_run_ops ops : forall g, graph_inv g -> graph_inv (run_ops g ops).
Proof.
  induction ops as [|op ops IH]; intros g Hg; simpl; [exact Hg|].
  apply IH. destruct op; simpl; [apply graph_inv_AddNode | apply graph_inv_AddEdge]; exact Hg.
Qed.

Lemma graph_inv_reachable n ops : graph_inv (run_ops (CDependencyGraph_new n) ops).
Proof. apply graph_inv_run_ops, graph_inv_new. Qed.


Lemma elem_of_alphabet d : d ∈ alphabet <-> IsValidNodeID d = true.
Proof.
  unfold alphabet. rewrite elem_of_list_to_set, elem_of_app, !elem_of_seqZ.
  rewrite valid_id_bounds. lia.
Qed.

Lemma size_alphabet : size alphabet = 50%nat.
Proof. vm_compute. reflexivity. Qed.

Lemma edge_set_bound (m : gmap Z Z) :
  (forall d, is_Some (m !! d) -> IsValidNodeID d = true) -> (size m <= 50)%nat.
Proof.
  intros H. rewrite <- size_dom, <- size_alphabet. apply subseteq_size.
  intros d Hd. apply elem_of_alphabet, H. now apply elem_of_dom.
Qed.

Lemma sum_edges_bound l :
  (forall i n d, l !! i = Some n -> is_Some (m_setEdges n !! d) -> IsValidNodeID d = true) ->
  (sum_edges l <= 50 * N.of_nat (count_valid l))%N.
Proof.
  induction l as [|a l IH]; intros H; simpl; [lia|].
  assert (sum_edges l <= 50 * N.of_nat (count_valid l))%N as IH'.
  { apply IH. intros i n d Hi. apply (H (S i) n d Hi). }
  unfold NodeGetNumEdges. destruct (IsValid a); [|lia].
  pose proof (edge_set_bound (m_setEdges a) (fun d => H O a d eq_refl)). lia.
Qed.

Lemma total_edges_bound g : graph_inv g -> (sum_edges (m_vNodes g) <= 1250)%N.
Proof.
  intros Hg.
  pose proof (sum_edges_bound (m_vNodes g)
                (fun i n d Hi Hd => proj1 (inv_edges g Hg i n d Hi Hd))) as H1.
  pose proof (num_nodes_bound g Hg) as H2. rewrite (inv_count g Hg) in H2. lia.
Qed.

Lemma foldl_sum_edges l : forall acc,
  (acc + sum_edges l <= 4096)%N ->
  foldl (fun nNumEdges n => to_size_t (nNumEdges + NodeGetNumEdges n)) acc l
  = (acc + sum_edges l)%N.
Proof.
  induction l as [|a l IH]; intros acc H; simpl in *; [lia|].
  rewrite to_size_t_small by lia. rewrite IH by lia. lia.
Qed.

Lemma GetNumEdges_sum g : graph_inv g -> GetNumEdges g = sum_edges (m_vNodes g).
Proof.
  intros Hg. unfold GetNumEdges.
  rewrite take_ge by (rewrite (inv_length g Hg); lia).
  pose proof (total_edges_bound g Hg). rewrite foldl_sum_edges; lia.
Qed.

(** Edges and nodes are never removed. *)
Lemma node_at_insert_eq g i n' mx nn :
  (N.to_nat i < length (m_vNodes g))%nat ->
  node_at {| m_nMaxNodes := mx; m_nNumNodes := nn;
             m_vNodes := <[N.to_nat i := n']> (m_vNodes g) |} i = n'.
Proof.
  intros H. unfold node_at. simpl. now rewrite list_lookup_insert_eq.
Qed.

Lemma node_at_insert_ne g i j n' mx nn :
  i <> j ->
  node_at {| m_nMaxNodes := mx; m_nNumNodes := nn;
             m_vNodes := <[N.to_nat i := n']> (m_vNodes g) |} j = node_at g j.
Proof.
  intros H. unfold node_at. simpl. rewrite list_lookup_insert_ne; [reflexivity | lia].
Qed.

Lemma apply_op_keeps g op i d w :
  graph_inv g -> IsValidNodeIndex g i = true ->
  IsValid (node_at g i) = true ->
  m_setEdges (node_at g i) !! d = Some w ->
  IsValidNodeIndex (apply_op g op) i = true /\
  IsValid (node_at (apply_op g op) i) = true /\
  m_setEdges (node_at (apply_op g op) i) !! d = Some w.
Proof.
  intros Hg Hi Hv Hd. destruct op as [x | a b w']; simpl.
  - destruct (AddNode_cases g x Hg) as [(Hn & Hix & Hx & ->)|[_ ->]]; [|auto].
    simpl. split; [exact Hi|].
    unfold HasNode in Hn. cbv zeta in Hn. rewrite Hix in Hn.
    destruct (decide (GetNodeIndex x = i)) as [Heq|Hne]; [rewrite Heq in Hn; congruence|].
    rewrite node_at_insert_ne by assumption. auto.
  - destruct (AddEdge_cases g a b w' Hg) as [(Ha & Hb & Hn & He & ->)|[_ ->]]; [|auto].
    simpl. split; [exact Hi|].
    destruct (decide (GetNodeIndex a = i)) as [Heq|Hne].
    + subst i. rewrite node_at_insert_eq by (eapply valid_index_in_range; eauto).
      simpl. split; [exact Hv|].
      destruct (decide (b = d)) as [->|Hbd].
      * unfold HasEdge in He. rewrite Hd in He. discriminate.
      * now rewrite lookup_insert_ne.
    + rewrite node_at_insert_ne by assumption. auto.
Qed.

Lemma run_ops_keeps ops : forall g i d w,
  graph_inv g -> IsValidNodeIndex g i = true ->
  IsValid (node_at g i) = true ->
  m_setEdges (node_at g i) !! d = Some w ->
  IsValidNodeIndex (run_ops g ops) i = true /\
  IsValid (node_at (run_ops g ops) i) = true /\
  m_setEdges (node_at (run_ops g ops) i) !! d = Some w.
Proof.
  induction ops as [|op ops IH]; intros g i d w Hg Hi Hv Hd; simpl; [auto|].
  destruct (apply_op_keeps g op i d w Hg Hi Hv Hd) as (Hi' & Hv' & Hd').
  apply IH; auto.
  destruct op; simpl; [apply graph_inv_AddNode | apply graph_inv_AddEdge]; exact Hg.
Qed.

(** An edge whose source has not been added is refused. *)
Lemma AddEdge_unregistered_source g a b w :
  graph_inv g -> HasNode g a = false -> AddEdge g a b w = (false, g).
Proof.
  intros Hg Hn. destruct (AddEdge_cases g a b w Hg) as [(_ & _ & Hn' & _)|[_ H]];
    [congruence | exact H].
Qed.

End GraphFacts.

(** ** Properties of the dependency graph *)

Module GraphClaims.

Import Graph GraphSpec GraphFacts.

(** C6, as stated, fails on the default graph (ten slots) at ['k'], whose
    slot index is 10: both calls are refused and the node count stays 0. *)
Lemma AddNode_twice_out_of_capacity :
  let g := CDependencyGraph_default in
  let r1 := AddNode g 107 in
  let r2 := AddNode (snd r1) 107 in
  IsValidNodeID 107 = true /\ fst r2 = false /\
  GetNumNodes (snd r2) <> (GetNumNodes g + 1)%N.
Proof. vm_compute. repeat split; discriminate. Qed.

(** C6 (amended).  For every identity [x] of the alphabet and every graph a
    client can build, the second of two consecutive [AddNode x] calls returns
    false and leaves the graph as the first call left it.  The first call
    succeeds exactly when [x] was not in the graph and its slot index is below
    the capacity; [GetNumNodes] then grows by exactly 1 over the two calls, and
    otherwise it does not change. *)
Theorem AddNode_twice (nMaxNodes : N) (ops : list graph_op) (x : Z) :
  IsValidNodeID x = true ->
  let g := run_ops (CDependencyGraph_new nMaxNodes) ops in
  let r1 := AddNode g x in
  let r2 := AddNode (snd r1) x in
  fst r2 = false /\ snd r2 = snd r1 /\
  (fst r1 = true <->
     HasNode g x = false /\ (GetNodeIndex x < m_nMaxNodes g)%N) /\
  GetNumNodes (snd r2) = (GetNumNodes g + if fst r1 then 1 else 0)%N.
Proof.
  intros Hx g r1 r2.
  assert (Hg : graph_inv g) by apply graph_inv_reachable.
  assert (Hg1 : graph_inv (snd r1)) by (apply graph_inv_AddNode; exact Hg).
  assert (H2 : r2 = (false, snd r1)).
  { subst r2.
    destruct (AddNode_cases (snd r1) x Hg1) as [(Hn & Hi1 & _ & _)|[_ H]]; [|exact H].
    exfalso. subst r1.
    destruct (AddNode_cases g x Hg) as [(Hn0 & Hi & _ & E)|[[Hn0|Hi] E]];
      rewrite E in Hn, Hi1; simpl in Hn, Hi1.
    - unfold HasNode in Hn. cbv zeta in Hn.
      rewrite (node_at_insert_eq g) in Hn by (eapply valid_index_in_range; eauto).
      unfold IsValidNodeIndex in Hn, Hi. simpl in Hn. rewrite Hi in Hn.
      unfold IsValid, INVALID_NODE_ID in Hn. simpl in Hn.
      apply valid_id_bounds in Hx. lia.
    - congruence.
    - congruence. }
  rewrite H2. simpl. split; [reflexivity|]. split; [reflexivity|].
  subst r1. unfold GetNumNodes.
  destruct (AddNode_cases g x Hg) as [(Hn0 & Hi & _ & E)|[Hc E]]; rewrite E; simpl.
  - split; [|reflexivity]. split; [intros _|reflexivity].
    split; [exact Hn0|]. unfold IsValidNodeIndex in Hi. now apply N.ltb_lt.
  - split; [|lia]. split; [discriminate|]. intros [Hn Hi]. exfalso.
    destruct Hc as [Hc|Hc]; [congruence|].
    unfold IsValidNodeIndex in Hc. apply N.ltb_ge in Hc. lia.
Qed.

Lemma AddNode_twice_witness :
  let g := run_ops (CDependencyGraph_new 25) [OpAddNode 97] in
  let r1 := AddNode g 98 in
  let r2 := AddNode (snd r1) 98 in
  fst r2 = false /\ snd r2 = snd r1 /\
  (fst r1 = true <->
     HasNode g 98 = false /\ (GetNodeIndex 98 < m_nMaxNodes g)%N) /\
  GetNumNodes (snd r2) = (GetNumNodes g + if fst r1 then 1 else 0)%N.
Proof. apply (AddNode_twice 25 [OpAddNode 97] 98). reflexivity. Defined.

(** C7.  With [a] and [b] in the alphabet, [a] added, and no edge from [a] to
    [b] yet, the first [AddEdge a b w] returns true and any repeat with the same
    destination, whatever its weight and whatever calls were made in between,
    returns false and changes nothing: [GetNumEdges] has grown by exactly 1
    over the two calls and the weight stored for [b] is still [w]. *)
Theorem AddEdge_twice (nMaxNodes : N) (ops : list graph_op) (a b w w' : Z) :
  let g := run_ops (CDependencyGraph_new nMaxNodes) ops in
  IsValidNodeID a = true -> IsValidNodeID b = true ->
  HasNode g a = true ->
  HasEdge (node_at g (GetNodeIndex a)) b = false ->
  let r1 := AddEdge g a b w in
  let r2 := AddEdge (snd r1) a b w' in
  fst r1 = true /\ fst r2 = false /\ snd r2 = snd r1 /\
  GetNumEdges (snd r1) = (GetNumEdges g + 1)%N /\
  GetNumEdges (snd r2) = (GetNumEdges g + 1)%N /\
  EdgeWeight (node_at (snd r2) (GetNodeIndex a)) b = Some w /\
  (forall later : list graph_op,
     let g' := run_ops (snd r1) later in
     AddEdge g' a b w' = (false, g') /\
     EdgeWeight (node_at g' (GetNodeIndex a)) b = Some w).
Proof.
  intros g Ha Hb Hn He r1 r2.
  assert (Hg : graph_inv g) by apply graph_inv_reachable.
  assert (Hg1 : graph_inv (snd r1)) by (apply graph_inv_AddEdge; exact Hg).
  assert (Hi : IsValidNodeIndex g (GetNodeIndex a) = true).
  { unfold HasNode in Hn. cbv zeta in Hn.
    destruct (IsValidNodeIndex g (GetNodeIndex a)); [reflexivity | discriminate]. }
  assert (Hv : IsValid (node_at g (GetNodeIndex a)) = true).
  { unfold HasNode in Hn. cbv zeta in Hn. now rewrite Hi in Hn. }
  pose proof (valid_index_in_range g _ Hg Hi) as Hlt.
  pose proof (node_at_lookup g _ Hlt) as Hat.
  assert (E1 : r1 = (true,
            {| m_nMaxNodes := m_nMaxNodes g; m_nNumNodes := m_nNumNodes g;
               m_vNodes := <[N.to_nat (GetNodeIndex a) :=
                  {| m_ID := m_ID (node_at g (GetNodeIndex a));
                     m_setEdges := <[b:=w]> (m_setEdges (node_at g (GetNodeIndex a))) |}]>
                  (m_vNodes g) |})).
  { subst r1. destruct (AddEdge_cases g a b w Hg) as [(_ & _ & _ & _ & E)|[Hc _]];
      [exact E|]. destruct Hc as [Hc|[Hc|[Hc|Hc]]]; congruence. }
  assert (Hw1 : m_setEdges (node_at (snd r1) (GetNodeIndex a)) !! b = Some w).
  { rewrite E1. simpl. rewrite node_at_insert_eq by assumption. simpl.
    apply lookup_insert_eq. }
  assert (Hi1 : IsValidNodeIndex (snd r1) (GetNodeIndex a) = true)
    by (rewrite E1; exact Hi).
  assert (Hv1 : IsValid (node_at (snd r1) (GetNodeIndex a)) = true).
  { rewrite E1. simpl. rewrite node_at_insert_eq by assumption. exact Hv. }
  assert (Hlater : forall later : list graph_op,
     let g' := run_ops (snd r1) later in
     AddEdge g' a b w' = (false, g') /\
     EdgeWeight (node_at g' (GetNodeIndex a)) b = Some w).
  { intros later g'.
    destruct (run_ops_keeps later (snd r1) _ b w Hg1 Hi1 Hv1 Hw1) as (_ & _ & Hw').
    fold g' in Hw'. split; [|exact Hw'].
    assert (Hg' : graph_inv g') by (apply graph_inv_run_ops; exact Hg1).
    destruct (AddEdge_cases g' a b w' Hg') as [(_ & _ & _ & He' & _)|[_ E]]; [|exact E].
    unfold HasEdge in He'. rewrite Hw' in He'. discriminate. }
  destruct (Hlater []) as [E2 Hw2]. simpl in E2, Hw2. fold r2 in E2.
  assert (Hsum : GetNumEdges (snd r1) = (GetNumEdges g + 1)%N).
  { rewrite !GetNumEdges_sum by assumption. rewrite E1. simpl.
    pose proof (sum_edges_insert (m_vNodes g) _
       {| m_ID := m_ID (node_at g (GetNodeIndex a));
          m_setEdges := <[b:=w]> (m_setEdges (node_at g (GetNodeIndex a))) |} _ Hat) as Hs.
    unfold NodeGetNumEdges in Hs. unfold IsValid at 2 in Hs. simpl in Hs.
    fold (IsValid (node_at g (GetNodeIndex a))) in Hs. rewrite Hv in Hs.
    rewrite map_size_insert_None in Hs.
    - lia.
    - unfold HasEdge in He. now destruct (m_setEdges _ !! b). }
  rewrite E2. simpl. rewrite E1 at 1. simpl.
  repeat split; auto; apply Hlater.
Qed.

Lemma AddEdge_twice_witness :
  let g := run_ops (CDependencyGraph_new 25) [OpAddNode 97; OpAddNode 98] in
  let r1 := AddEdge g 98 97 1 in
  let r2 := AddEdge (snd r1) 98 97 7 in
  fst r1 = true /\ fst r2 = false /\ snd r2 = snd r1 /\
  GetNumEdges (snd r1) = (GetNumEdges g + 1)%N /\
  GetNumEdges (snd r2) = (GetNumEdges g + 1)%N /\
  EdgeWeight (node_at (snd r2) (GetNodeIndex 98)) 97 = Some 1 /\
  (forall later : list graph_op,
     let g' := run_ops (snd r1) later in
     AddEdge g' 98 97 7 = (false, g') /\
     EdgeWeight (node_at g' (GetNodeIndex 98)) 97 = Some 1).
Proof.
  apply (AddEdge_twice 25 [OpAddNode 97; OpAddNode 98] 98 97 1 7);
    vm_compute; reflexivity.
Defined.

(** C8, at the failing input.  On a graph of 25 slots to which only ['b'] has
    been added, the destination ['a'] is not registered, yet
    [AddEdge 'b' 'a' 1] returns true and stores the edge. *)
Theorem AddEdge_to_unregistered_destination :
  let g := snd (AddNode (CDependencyGraph_new 25) 98) in
  let r := AddEdge g 98 97 1 in
  HasNode g 98 = true /\ HasNode g 97 = false /\
  fst r = true /\ snd r <> g /\
  GetNumEdges g = 0%N /\ GetNumEdges (snd r) = 1%N /\
  HasEdge (node_at (snd r) (GetNodeIndex 98)) 97 = true.
Proof.
  vm_compute. repeat split; try reflexivity. intros H. discriminate H.
Qed.

End GraphClaims.

(** ** Facts about the pipeline simulator *)

Module PipelineFacts.

Import Pipeline PipelineSpec.

Arguments dword_inc : simpl never.

(** *** The stage pass *)

Lemma stage_loop_stalled todo v :
  bStalled v = true -> stage_loop todo v = (todo, v).
Proof. intros H. destruct todo; simpl; [reflexivity | now rewrite H]. Qed.

(** A visit that injects no stall replaces the record by its successor. *)
Lemma loop_body_free x r st co :
  stalls_here x = false ->
  loop_body x (mkVars r false st co) =
    ([advance x],
     mkVars (r || moves_on x) false st
            (if completes x then dword_inc co else co)).
Proof.
  destruct x as [i ps f]. unfold stalls_here, loop_body, advance, moves_on, completes,
    note_progress, real, IsNOOP. simpl.
  intros H. destruct ps; simpl in *; try rewrite H;
    destruct (i =? NOOP_INSTRUCTION); simpl;
    rewrite ?orb_true_r, ?orb_false_r; reflexivity.
Qed.

(** A visit that injects a stall. *)
Lemma loop_body_stall x r st co :
  stalls_here x = true ->
  loop_body x (mkVars r false st co) =
    ([CNoopInstruction_in PS_EX; SetDataDependent x false],
     mkVars r true (dword_inc st) co).
Proof.
  destruct x as [i ps f]. unfold stalls_here, loop_body. simpl.
  intros H. destruct ps; try discriminate. simpl in H. now rewrite H.
Qed.

Lemma stage_loop_free todo : forall r st co,
  no_stall todo = true ->
  stage_loop todo (mkVars r false st co) =
    (map advance todo,
     mkVars (r || existsb moves_on todo) false st (completions_in co todo)).
Proof.
  induction todo as [|x todo IH]; intros r st co H; unfold no_stall in *; simpl in *.
  - now rewrite orb_false_r.
  - apply andb_prop in H as [Hx H]. apply negb_true_iff in Hx.
    rewrite (loop_body_free x r st co Hx), (IH _ _ _ H). simpl.
    now rewrite orb_assoc.
Qed.

Lemma stage_loop_stall older : forall x newer r st co,
  no_stall older = true ->
  stalls_here x = true ->
  stage_loop (older ++ x :: newer) (mkVars r false st co) =
    (map advance older ++
       CNoopInstruction_in PS_EX :: SetDataDependent x false :: newer,
     mkVars (r || existsb moves_on older) true (dword_inc st)
            (completions_in co older)).
Proof.
  induction older as [|y older IH]; intros x newer r st co H Hx; unfold no_stall in *; simpl in *.
  - rewrite (loop_body_stall x r st co Hx), stage_loop_stalled by reflexivity.
    simpl. now rewrite orb_false_r.
  - apply andb_prop in H as [Hy H]. apply negb_true_iff in Hy.
    rewrite (loop_body_free y r st co Hy), (IH _ _ _ _ _ H Hx). simpl.
    now rewrite orb_assoc.
Qed.

(** A list has no record that stalls, or splits at the first one. *)
Lemma first_stall l :
  no_stall l = true \/
  exists older x newer,
    l = older ++ x :: newer /\
    no_stall older = true /\
    stalls_here x = true.
Proof.
  induction l as [|y l IH]; [left; reflexivity|].
  destruct (stalls_here y) eqn:Hy.
  - right. exists [], y, l. auto.
  - destruct IH as [IH|(older & x & newer & -> & Ho & Hx)].
    + left. unfold no_stall in *. simpl. now rewrite Hy.
    + right. exists (y :: older), x, newer. unfold no_stall in *. simpl. rewrite Hy. auto.
Qed.


Lemma no_stall_app l1 l2 : no_stall (l1 ++ l2) = no_stall l1 && no_stall l2.
Proof. apply forallb_app. Qed.

Lemma no_stall_rev l : no_stall (rev l) = no_stall l.
Proof.
  induction l as [|x l IH]; [reflexivity|].
  simpl. rewrite no_stall_app, IH. unfold no_stall. simpl.
  rewrite andb_true_r. apply andb_comm.
Qed.

Lemma existsb_rev {A} (p : A -> bool) l : existsb p (rev l) = existsb p l.
Proof.
  induction l as [|x l IH]; [reflexivity|].
  simpl. rewrite existsb_app, IH. simpl. rewrite orb_false_r. apply orb_comm.
Qed.

(** *** Retirement *)

Lemma retire_snoc l x :
  retire (l ++ [x]) = if is_completed x then l else l ++ [x].
Proof.
  unfold retire, back, pop_back. rewrite last_snoc.
  destruct (is_completed x); [apply removelast_last | reflexivity].
Qed.

Lemma retire_app pre l : l <> [] -> retire (pre ++ l) = pre ++ retire l.
Proof.
  intros H. destruct (exists_last H) as (l' & x & ->).
  rewrite app_assoc, !retire_snoc. destruct (is_completed x); [reflexivity|].
  now rewrite app_assoc.
Qed.

Lemma retire_cons a l : l <> [] -> retire (a :: l) = a :: retire l.
Proof. apply (retire_app [a]). Qed.

Lemma retire_behind_bubble l :
  retire (CNoopInstruction_in PS_EX :: l) = CNoopInstruction_in PS_EX :: retire l.
Proof.
  destruct l as [|y l]; [reflexivity|].
  apply (retire_app [CNoopInstruction_in PS_EX]). discriminate.
Qed.

(** *** Admission *)

Lemma admission_nonempty s lst que bRet : admission s = (lst, que, bRet) -> lst <> [].
Proof.
  unfold admission.
  destruct (N.of_nat (length (m_lstInstructionPipeline s)) <=? m_dwMaxPipelineDepth s)%N eqn:E.
  - destruct (m_queInstructions s); intros [= <- <- <-]; discriminate.
  - intros [= <- <- <-]. destruct (m_lstInstructionPipeline s); [|discriminate].
    simpl in E. apply N.leb_gt in E. lia.
Qed.

(** *** One call, in the two ways it can go *)

Lemma ProcessNextCycle_unfold s lst que bRet visited v :
  admission s = (lst, que, bRet) ->
  stage_loop (rev lst)
    (mkVars bRet false (m_dwStallCtr s) (m_dwCompletedCtr s)) = (visited, v) ->
  visited <> [] ->
  ProcessNextCycle s =
    Some (bReturn v,
          mkSim (dword_inc (m_dwCycle s)) (dwStallCtr v) (dwCompletedCtr v)
                (m_dwMaxPipelineDepth s) (retire (rev visited)) que).
Proof.
  intros Ha Hl Hne. unfold ProcessNextCycle. rewrite Ha, Hl.
  unfold retire. destruct (back (rev visited)) eqn:Hb; [reflexivity|].
  exfalso. unfold back in Hb. apply last_None in Hb.
  apply (f_equal (@rev _)) in Hb. rewrite rev_involutive in Hb. auto.
Qed.

(** No record of the list stalls: every record moves on. *)
Lemma ProcessNextCycle_free s lst que bRet :
  admission s = (lst, que, bRet) -> no_stall lst = true ->
  ProcessNextCycle s =
    Some (bRet || existsb moves_on lst,
          mkSim (dword_inc (m_dwCycle s)) (m_dwStallCtr s)
                (completions_in (m_dwCompletedCtr s) (rev lst))
                (m_dwMaxPipelineDepth s) (retire (map advance lst)) que).
Proof.
  intros Ha Hn.
  pose proof (admission_nonempty _ _ _ _ Ha) as Hne.
  erewrite ProcessNextCycle_unfold; [| exact Ha | apply stage_loop_free | ].
  - simpl. now rewrite existsb_rev, map_rev, rev_involutive.
  - now rewrite no_stall_rev.
  - destruct lst as [|y lst] using rev_ind; [congruence|].
    rewrite rev_unit. discriminate.
Qed.

(** The oldest record that stalls is [x]: the records behind it move on, the
    bubble goes between them and [x], the records in front stay as they are. *)
Lemma ProcessNextCycle_stall s lst que bRet newer x older :
  admission s = (lst, que, bRet) -> lst = newer ++ x :: older ->
  no_stall older = true -> stalls_here x = true ->
  ProcessNextCycle s =
    Some (bRet || existsb moves_on older,
          mkSim (dword_inc (m_dwCycle s)) (dword_inc (m_dwStallCtr s))
                (completions_in (m_dwCompletedCtr s) (rev older))
                (m_dwMaxPipelineDepth s)
                (newer ++ SetDataDependent x false :: CNoopInstruction_in PS_EX
                         :: retire (map advance older))
                que).
Proof.
  intros Ha -> Hn Hx.
  erewrite ProcessNextCycle_unfold; [| exact Ha | | ].
  2:{ rewrite rev_app_distr. simpl. rewrite <- app_assoc. simpl.
      apply stage_loop_stall; [now rewrite no_stall_rev | exact Hx]. }
  - simpl. rewrite existsb_rev. do 3 f_equal.
    rewrite rev_app_distr. simpl. rewrite rev_involutive, <- !app_assoc. simpl.
    rewrite map_rev, rev_involutive.
    rewrite (retire_app newer) by discriminate.
    rewrite retire_cons by discriminate.
    now rewrite retire_behind_bubble.
  - destruct (map advance (rev older)); discriminate.
Qed.

Lemma ProcessNextCycle_cases s :
  exists lst que bRet, admission s = (lst, que, bRet) /\
  (no_stall lst = true \/
   exists newer x older, lst = newer ++ x :: older /\
     no_stall older = true /\ stalls_here x = true).
Proof.
  destruct (admission s) as [[lst que] bRet] eqn:Ha. exists lst, que, bRet.
  split; [reflexivity|].
  destruct (first_stall (rev lst)) as [H|(o & x & n & E & Ho & Hx)].
  - left. now rewrite no_stall_rev in H.
  - right. exists (rev n), x, (rev o). rewrite no_stall_rev. repeat split; auto.
    apply (f_equal (@rev _)) in E. rewrite rev_involutive in E. rewrite E.
    rewrite rev_app_distr. simpl. now rewrite <- app_assoc.
Qed.


Lemma admission_cases s lst que bRet :
  admission s = (lst, que, bRet) ->
  (exists x, lst = x :: m_lstInstructionPipeline s /\
             m_queInstructions s = x :: que /\ bRet = true) \/
  (lst = CNoopInstruction :: m_lstInstructionPipeline s /\
   m_queInstructions s = [] /\ que = [] /\ bRet = false) \/
  (lst = m_lstInstructionPipeline s /\ que = m_queInstructions s /\ bRet = false).
Proof.
  unfold admission.
  destruct (N.of_nat (length (m_lstInstructionPipeline s)) <=? m_dwMaxPipelineDepth s)%N.
  - destruct (m_queInstructions s) as [|x q]; intros [= <- <- <-].
    + right. left. auto.
    + left. exists x. auto.
  - intros [= <- <- <-]. right. right. auto.
Qed.

(** *** Counting *)

Lemma count_where_app p l1 l2 :
  count_where p (l1 ++ l2) = (count_where p l1 + count_where p l2)%nat.
Proof. induction l1 as [|x l1 IH]; simpl; [reflexivity | rewrite IH; lia]. Qed.

Lemma total_weight_app l1 l2 :
  total_weight (l1 ++ l2) = (total_weight l1 + total_weight l2)%nat.
Proof. induction l1 as [|x l1 IH]; simpl; [reflexivity | rewrite IH; lia]. Qed.

Lemma weight_advance x :
  (weight (advance x) + (if moves_on x then 1 else 0) <= weight x)%nat.
Proof.
  destruct x as [i ps f]. unfold weight, advance, moves_on, real, IsNOOP. simpl.
  destruct (i =? NOOP_INSTRUCTION), ps; simpl; lia.
Qed.

Lemma total_weight_advance l :
  (total_weight (map advance l) + (if existsb moves_on l then 1 else 0)
   <= total_weight l)%nat.
Proof.
  induction l as [|x l IH]; simpl; [lia|].
  pose proof (weight_advance x).
  destruct (moves_on x), (existsb moves_on l); simpl in *; lia.
Qed.

Lemma retire_cases l :
  retire l = l \/ exists l' x, l = l' ++ [x] /\ retire l = l'.
Proof.
  destruct l as [|y l] using rev_ind; [left; reflexivity|].
  rewrite retire_snoc. destruct (is_completed y); [right; eauto | left; reflexivity].
Qed.

Lemma total_weight_retire l : (total_weight (retire l) <= total_weight l)%nat.
Proof.
  destruct (retire_cases l) as [->|(l' & x & -> & ->)]; [lia|].
  rewrite total_weight_app. lia.
Qed.

Lemma flagged_retire l : (flagged_count (retire l) <= flagged_count l)%nat.
Proof.
  unfold flagged_count.
  destruct (retire_cases l) as [->|(l' & x & -> & ->)]; [lia|].
  rewrite count_where_app. lia.
Qed.

Lemma flagged_advance l : flagged_count (map advance l) = flagged_count l.
Proof.
  unfold flagged_count. induction l as [|x l IH]; simpl; [reflexivity|].
  now rewrite IH.
Qed.

Lemma stalls_here_flagged x : stalls_here x = true -> IsDataDependent x = true.
Proof. unfold stalls_here. destruct (GetState x); auto; discriminate. Qed.

(** *** What one call does to the measures *)

Lemma step_work s b s' :
  ProcessNextCycle s = Some (b, s') ->
  (work s' + (if b then 1 else 0) <= work s)%nat.
Proof.
  intros H.
  destruct (ProcessNextCycle_cases s) as (lst & que & bRet & Ha & Hc).
  assert (Hadm : (total_weight lst + total_weight que + length que
                  + (if bRet then 1 else 0) <= work s)%nat).
  { unfold work.
    destruct (admission_cases _ _ _ _ Ha)
      as [(x & -> & -> & ->)|[(-> & -> & -> & ->)|(-> & -> & ->)]]; simpl; lia. }
  destruct Hc as [Hn|(newer & x & older & -> & Hn & Hx)].
  - rewrite (ProcessNextCycle_free _ _ _ _ Ha Hn) in H. injection H as <- <-.
    unfold work at 1. simpl.
    pose proof (total_weight_retire (map advance lst)).
    pose proof (total_weight_advance lst).
    destruct bRet, (existsb moves_on lst); simpl in *; lia.
  - rewrite (ProcessNextCycle_stall _ _ _ _ _ _ _ Ha eq_refl Hn Hx) in H.
    injection H as <- <-. unfold work at 1. simpl.
    rewrite total_weight_app in *. simpl in *.
    pose proof (total_weight_retire (map advance older)).
    pose proof (total_weight_advance older).
    assert (weight (SetDataDependent x false) = weight x) by reflexivity.
    assert (weight (CNoopInstruction_in PS_EX) = O) by reflexivity.
    destruct bRet, (existsb moves_on older); simpl in *; lia.
Qed.

Lemma step_queue s b s' :
  ProcessNextCycle s = Some (b, s') ->
  m_queInstructions s' = m_queInstructions s \/
  exists x, m_queInstructions s = x :: m_queInstructions s'.
Proof.
  intros H.
  destruct (ProcessNextCycle_cases s) as (lst & que & bRet & Ha & Hc).
  assert (Hq : m_queInstructions s' = que).
  { destruct Hc as [Hn|(newer & x & older & -> & Hn & Hx)].
    - rewrite (ProcessNextCycle_free _ _ _ _ Ha Hn) in H. now injection H as <- <-.
    - rewrite (ProcessNextCycle_stall _ _ _ _ _ _ _ Ha eq_refl Hn Hx) in H.
      now injection H as <- <-. }
  rewrite Hq.
  destruct (admission_cases _ _ _ _ Ha)
    as [(x & _ & E & _)|[(_ & E & -> & _)|(_ & -> & _)]]; eauto.
Qed.

Lemma step_stalls s b s' :
  ProcessNextCycle s = Some (b, s') ->
  (m_dwStallCtr s' = m_dwStallCtr s /\ (flags_left s' <= flags_left s)%nat) \/
  (m_dwStallCtr s' = dword_inc (m_dwStallCtr s) /\
   (S (flags_left s') <= flags_left s)%nat).
Proof.
  intros H.
  destruct (ProcessNextCycle_cases s) as (lst & que & bRet & Ha & Hc).
  assert (Hadm : (flagged_count lst + flagged_count que = flags_left s)%nat).
  { unfold flags_left.
    destruct (admission_cases _ _ _ _ Ha)
      as [(x & -> & -> & ->)|[(-> & -> & -> & ->)|(-> & -> & ->)]];
      unfold flagged_count; simpl; lia. }
  destruct Hc as [Hn|(newer & x & older & -> & Hn & Hx)].
  - rewrite (ProcessNextCycle_free _ _ _ _ Ha Hn) in H. injection H as <- <-.
    left. split; [reflexivity|]. unfold flags_left at 1. simpl.
    pose proof (flagged_retire (map advance lst)). rewrite flagged_advance in *. lia.
  - rewrite (ProcessNextCycle_stall _ _ _ _ _ _ _ Ha eq_refl Hn Hx) in H.
    injection H as <- <-. right. split; [reflexivity|].
    unfold flags_left at 1. simpl.
    pose proof (flagged_retire (map advance older)). rewrite flagged_advance in *.
    unfold flagged_count in *. rewrite count_where_app in *. simpl in *.
    rewrite (stalls_here_flagged x Hx) in Hadm. lia.
Qed.

Lemma ProcessNextCycle_is_Some s : is_Some (ProcessNextCycle s).
Proof.
  destruct (ProcessNextCycle_cases s)
    as (lst & que & bRet & Ha & [Hn|(newer & x & older & -> & Hn & Hx)]).
  - rewrite (ProcessNextCycle_free _ _ _ _ Ha Hn). eauto.
  - rewrite (ProcessNextCycle_stall _ _ _ _ _ _ _ Ha eq_refl Hn Hx). eauto.
Qed.

Lemma dword_inc_le x : (dword_inc x <= x + 1)%N.
Proof. unfold dword_inc. apply N.Div0.mod_le. Qed.

End PipelineFacts.

(** ** The run of a simulator fed by the driver *)

Module RunFacts.

Import Pipeline PipelineSpec PipelineFacts.

Lemma fresh_instr_inv x :
  fresh_instr x = true ->
  exists c f, x = mkInstr c PS_INVALID f /\ (c =? 45) = false.
Proof.
  destruct x as [c ps f]. unfold fresh_instr, real, IsNOOP. simpl.
  intros H. apply andb_prop in H as [H1 H2]. apply negb_true_iff in H1.
  destruct ps; try discriminate. eauto.
Qed.

(** Decide every identity test and every flag in sight. *)
Ltac case_identity i :=
  let E := fresh "E" in
  destruct (i =? 45) eqn:E;
  [apply Z.eqb_eq in E; subst i | ].

Ltac use_tests :=
  repeat match goal with
  | H : (?i =? 45) = false |- context [?i =? 45] => rewrite H
  | H : (?i =? 45) = false, H' : context [?i =? 45] |- _ =>
      lazymatch type of H' with
      | (i =? 45) = false => fail
      | _ => rewrite H in H'
      end
  end.

Ltac crunch :=
  repeat progress
    (unfold calls_left, flags_left, stall_step, bubble_unflagged, front_real, real,
            IsNOOP, NOOP_INSTRUCTION, flagged_count, CNoopInstruction,
            CNoopInstruction_in, SetState, SetDataDependent, note_progress,
            fresh_instr in *;
     simpl in *; use_tests).

Ltac finish_inv :=
  apply mkSimInv; crunch;
  try reflexivity; try assumption; try (solve [constructor]).

Ltac all_cases :=
  repeat match goal with f : bool |- _ => destruct f end;
  repeat match goal with
         | i : Z |- _ =>
             lazymatch goal with
             | H : (i =? 45) = false |- _ => fail
             | _ => case_identity i
             end
         end;
  crunch; try discriminate.

Ltac run_case :=
  unfold ProcessNextCycle, admission; crunch;
  eexists _, _; split; [reflexivity|];
  split; [finish_inv | crunch; repeat split; auto; try lia;
          first [left; split; [reflexivity | lia]
                | right; split; [reflexivity | lia]]].

Lemma step_inv s :
  sim_inv s ->
  exists b s',
    ProcessNextCycle s = Some (b, s') /\ sim_inv s' /\
    (if b then (0 < calls_left s)%nat else calls_left s = 0%nat) /\
    calls_left s' = Nat.pred (calls_left s) /\
    stall_step s s'.
Proof.
  destruct s as [cyc st co depth lst que].
  intros [Hd Hs Hq Hb Hf Hr]. simpl in *. subst depth.
  destruct que as [|x que].
  - inversion Hs; subst; clear Hs; all_cases.
    all: solve [run_case].
  - simpl in Hq. apply andb_prop in Hq as [Hx Hq].
      destruct (fresh_instr_inv x Hx) as (c & f & -> & Ec). clear Hx.
    inversion Hs; subst; clear Hs; all_cases.
    all: solve [run_case].
Qed.


Lemma iter_shift {A} (f : A -> A) k x : Nat.iter k f (f x) = f (Nat.iter k f x).
Proof. induction k as [|k IH]; simpl; [reflexivity | now rewrite IH]. Qed.

Lemma iter_dword_inc k : Nat.iter k dword_inc 0%N = (N.of_nat k mod DWORD_MODULUS)%N.
Proof.
  induction k as [|k IH]; [reflexivity|].
  simpl Nat.iter. rewrite IH. unfold dword_inc.
  rewrite N.Div0.add_mod_idemp_l. f_equal. lia.
Qed.

Lemma calls_left_flags s : (flags_left s <= calls_left s)%nat.
Proof. unfold calls_left. lia. Qed.

(** From a state of the run, the calls return true exactly [calls_left]
    times, then false; by then every flag has been consumed by one stall. *)
Lemma run_exact n : forall s,
  sim_inv s -> calls_left s = n ->
  exists s',
    calls (S n) s = Some (replicate n true ++ [false], s') /\
    sim_inv s' /\ flags_left s' = O /\
    m_dwStallCtr s' = Nat.iter (flags_left s) dword_inc (m_dwStallCtr s).
Proof.
  induction n as [|n IH]; intros s Hs Hn;
    destruct (step_inv s Hs) as (b & s1 & Hstep & Hs1 & Hb & Hl & Hst);
    pose proof (calls_left_flags s) as Hfl.
  - destruct b; [lia|]. exists s1. simpl. rewrite Hstep.
    split; [reflexivity|]. split; [exact Hs1|].
    destruct Hst as [[E1 E2]|[E1 E2]]; [|lia].
    replace (flags_left s) with O in * by lia. auto.
  - destruct b; [|lia].
    destruct (IH s1 Hs1 ltac:(lia)) as (s' & Hc & Hs' & Hf' & Hst').
    exists s'. change (calls (S (S n)) s) with
      (match ProcessNextCycle s with
       | None => None
       | Some (b, s1) =>
           match calls (S n) s1 with
           | None => None
           | Some (bs, s2) => Some (b :: bs, s2)
           end
       end).
    rewrite Hstep, Hc. split; [reflexivity|]. split; [exact Hs'|].
    split; [exact Hf'|]. rewrite Hst'.
    destruct Hst as [[E1 E2]|[E1 E2]].
    + now rewrite E1, E2.
    + rewrite E1, <- E2. simpl. now rewrite iter_shift.
Qed.

(** Every call of the run is defined and leads to a state of the run. *)
Lemma calls_inv j : forall s,
  sim_inv s ->
  exists bs sj, calls j s = Some (bs, sj) /\ sim_inv sj /\
    (flags_left s = O -> m_dwStallCtr sj = m_dwStallCtr s).
Proof.
  induction j as [|j IH]; intros s Hs.
  - exists [], s. auto.
  - destruct (step_inv s Hs) as (b & s1 & Hstep & Hs1 & _ & _ & Hst).
    destruct (IH s1 Hs1) as (bs & sj & Hc & Hsj & Hstall).
    exists (b :: bs), sj. simpl. rewrite Hstep, Hc.
    split; [reflexivity|]. split; [exact Hsj|].
    intros H0. destruct Hst as [[E1 E2]|[E1 E2]]; [|lia].
    rewrite Hstall by lia. exact E1.
Qed.

(** The simulator after queueing. *)
Lemma insert_all_queue instrs : forall s,
  insert_all s instrs =
    mkSim (m_dwCycle s) (m_dwStallCtr s) (m_dwCompletedCtr s)
          (m_dwMaxPipelineDepth s) (m_lstInstructionPipeline s)
          (m_queInstructions s ++ instrs).
Proof.
  induction instrs as [|x instrs IH]; intros s; simpl.
  - rewrite app_nil_r. now destruct s.
  - unfold insert_all in IH. rewrite IH. simpl. now rewrite <- app_assoc.
Qed.

Lemma sim_inv_start instrs :
  forallb fresh_instr instrs = true -> flag_ok false instrs = true ->
  sim_inv (insert_all CPipelineSim_new instrs).
Proof.
  intros Hq Hf. rewrite insert_all_queue. simpl.
  constructor; simpl; auto. constructor.
Qed.

Lemma calls_left_start instrs :
  calls_left (insert_all CPipelineSim_new instrs) =
    match instrs with
    | [] => O
    | _ :: _ => (length instrs + 3 + flagged_count instrs)%nat
    end.
Proof.
  rewrite insert_all_queue. unfold calls_left, flags_left. simpl.
  destruct instrs; simpl; unfold flagged_count; simpl; lia.
Qed.

(** Queues built from identities that are not the NOOP symbol. *)
Lemma fresh_queue (flag : Z -> bool) ids :
  Forall (fun c => c <> NOOP_INSTRUCTION) ids ->
  forallb fresh_instr (map (fun c => CInstructionData_new c (flag c)) ids) = true.
Proof.
  induction 1 as [|c ids Hc _ IH]; simpl; [reflexivity|].
  rewrite IH, andb_true_r. unfold fresh_instr, real, IsNOOP. simpl.
  rewrite andb_true_r. apply negb_true_iff. now apply Z.eqb_neq.
Qed.

Lemma flag_ok_real l :
  forallb fresh_instr l = true -> flag_ok true l = true.
Proof.
  induction l as [|x l IH]; simpl; [reflexivity|].
  intros H. apply andb_prop in H as [Hx H].
  unfold fresh_instr in Hx. apply andb_prop in Hx as [-> _].
  rewrite IH by assumption. now destruct (IsDataDependent x).
Qed.

Lemma flagged_count_const (f : bool) ids :
  flagged_count (map (fun c => CInstructionData_new c f) ids)
  = if f then length ids else O.
Proof.
  unfold flagged_count. induction ids as [|c ids IH]; simpl; [now destruct f|].
  rewrite IH. now destruct f.
Qed.

End RunFacts.

(** ** Polling *)

Module PollFacts.

Import Pipeline PipelineSpec PipelineFacts Driver.

Lemma calls_app i : forall j s,
  calls (i + j) s =
    match calls i s with
    | None => None
    | Some (bs, si) =>
        match calls j si with
        | None => None
        | Some (bs', sj) => Some (bs ++ bs', sj)
        end
    end.
Proof.
  induction i as [|i IH]; intros j s; simpl.
  - destruct (calls j s) as [[bs sj]|]; reflexivity.
  - destruct (ProcessNextCycle s) as [[b s1]|]; [|reflexivity].
    rewrite IH. destruct (calls i s1) as [[bs si]|]; [|reflexivity].
    destruct (calls j si) as [[bs' sj]|]; reflexivity.
Qed.

Lemma calls_S n s :
  calls (S n) s =
    match ProcessNextCycle s with
    | None => None
    | Some (b, s1) =>
        match calls n s1 with
        | None => None
        | Some (bs, s2) => Some (b :: bs, s2)
        end
    end.
Proof. reflexivity. Qed.

(** The polling loop stops at the first call that returns false. *)
Lemma poll_calls n : forall s s' fuel,
  calls (S n) s = Some (replicate n true ++ [false], s') ->
  (n < fuel)%nat -> poll fuel s = Some (n, s').
Proof.
  induction n as [|n IH]; intros s s' fuel H Hfuel;
    (destruct fuel as [|fuel]; [lia|]); rewrite calls_S in H; simpl poll;
    destruct (ProcessNextCycle s) as [[b s1]|]; try discriminate.
  - simpl in H. injection H as -> ->. reflexivity.
  - destruct (calls (S n) s1) as [[bs s2]|] eqn:Hc; [|discriminate].
    simpl in H. injection H as Hb Hbs Hs. subst b bs s2.
    rewrite (IH s1 s' fuel Hc) by lia. reflexivity.
Qed.

(** From any state, a call returns false after at most [work] calls that
    returned true. *)
Lemma first_false w : forall s,
  (work s <= w)%nat ->
  exists n s', (n <= work s)%nat /\
    calls (S n) s = Some (replicate n true ++ [false], s').
Proof.
  induction w as [|w IH]; intros s Hw;
    destruct (ProcessNextCycle_is_Some s) as [[b s1] Hstep];
    pose proof (step_work s b s1 Hstep) as Hdec.
  - destruct b; [lia|]. exists O, s1. simpl. rewrite Hstep. split; [lia | reflexivity].
  - destruct b.
    + destruct (IH s1 ltac:(lia)) as (n & s' & Hn & Hc).
      exists (S n), s'. split; [lia|].
      change (calls (S (S n)) s) with
        (match ProcessNextCycle s with
         | None => None
         | Some (b, s1) =>
             match calls (S n) s1 with
             | None => None
             | Some (bs, s2) => Some (b :: bs, s2)
             end
         end).
      rewrite Hstep, Hc. reflexivity.
    + exists O, s1. simpl. rewrite Hstep. split; [lia | reflexivity].
Qed.

(** Along any sequence of calls the queue loses elements at its front only,
    and the stall counter grows by no more than the flags consumed. *)
Lemma calls_monotone j : forall s bs sj,
  calls j s = Some (bs, sj) ->
  (exists taken, m_queInstructions s = taken ++ m_queInstructions sj) /\
  (N.to_nat (m_dwStallCtr sj) + flags_left sj
   <= N.to_nat (m_dwStallCtr s) + flags_left s)%nat.
Proof.
  induction j as [|j IH]; intros s bs sj H; simpl in H.
  - injection H as <- <-. split; [exists []; reflexivity | lia].
  - destruct (ProcessNextCycle s) as [[b s1]|] eqn:Hstep; [|discriminate].
    destruct (calls j s1) as [[bs' s2]|] eqn:Hc; [|discriminate].
    injection H as <- <-.
    destruct (IH _ _ _ Hc) as [[taken Ht] Hs]. split.
    + destruct (step_queue _ _ _ Hstep) as [E|[x E]].
      * exists taken. congruence.
      * exists (x :: taken). rewrite E, Ht. reflexivity.
    + pose proof (dword_inc_le (m_dwStallCtr s)).
      destruct (step_stalls _ _ _ Hstep) as [[E1 E2]|[E1 E2]]; rewrite E1 in Hs; lia.
Qed.

End PollFacts.


(** ** Properties of the pipeline simulator *)

Module PipelineClaims.

Import Pipeline PipelineSpec PipelineFacts RunFacts PollFacts Driver.

(** C1.  Suppose that, after admission, the in-flight list reads
    [newer ++ x :: older], that [x] is in Decode with its flag set, and that
    no record behind it stalls, so that the pass reaches [x].  Then the call
    leaves [x] in Decode with the flag cleared, puts a NOOP in Execute directly
    behind it, moves the records of [older] on as usual, leaves the records of
    [newer] untouched, and increments the stall counter once.  In any call
    whatever the stall counter is incremented at most once. *)
Theorem stall_injection :
  (forall s lst que bRet newer x older,
     admission s = (lst, que, bRet) ->
     lst = newer ++ x :: older ->
     GetState x = PS_ID -> IsDataDependent x = true ->
     no_stall older = true ->
     exists b s',
       ProcessNextCycle s = Some (b, s') /\
       m_lstInstructionPipeline s' =
         newer ++ SetDataDependent x false :: CNoopInstruction_in PS_EX
               :: retire (map advance older) /\
       GetState (SetDataDependent x false) = PS_ID /\
       IsDataDependent (SetDataDependent x false) = false /\
       IsNOOP (CNoopInstruction_in PS_EX) = true /\
       GetState (CNoopInstruction_in PS_EX) = PS_EX /\
       GetStallCount s' = dword_inc (GetStallCount s) /\
       ((GetStallCount s + 1 < DWORD_MODULUS)%N ->
        GetStallCount s' = (GetStallCount s + 1)%N)) /\
  (forall s b s',
     ProcessNextCycle s = Some (b, s') ->
     GetStallCount s' = GetStallCount s \/
     GetStallCount s' = dword_inc (GetStallCount s)).
Proof.
  split.
  - intros s lst que bRet newer x older Ha Hl Hst Hfl Hn.
    assert (Hx : stalls_here x = true) by (unfold stalls_here; now rewrite Hst).
    eexists _, _. split; [apply (ProcessNextCycle_stall _ _ _ _ _ _ _ Ha Hl Hn Hx)|].
    simpl. unfold GetStallCount. simpl.
    repeat split; auto.
    intros Hlt. unfold dword_inc. now apply N.mod_small.
  - intros s b s' H. unfold GetStallCount.
    destruct (step_stalls _ _ _ H) as [[E _]|[E _]]; auto.
Qed.

Lemma stall_injection_witness :
  let a := mkInstr 97 PS_EX false in
  let b := mkInstr 98 PS_ID true in
  let c := mkInstr 99 PS_IF false in
  let d := mkInstr 100 PS_INVALID false in
  let s := mkSim 3 0 0 4 [c; b; a] [d] in
  exists r s',
    ProcessNextCycle s = Some (r, s') /\
    m_lstInstructionPipeline s' =
      [d; c] ++ SetDataDependent b false :: CNoopInstruction_in PS_EX
             :: retire (map advance [a]) /\
    GetState (SetDataDependent b false) = PS_ID /\
    IsDataDependent (SetDataDependent b false) = false /\
    IsNOOP (CNoopInstruction_in PS_EX) = true /\
    GetState (CNoopInstruction_in PS_EX) = PS_EX /\
    GetStallCount s' = dword_inc (GetStallCount s) /\
    ((GetStallCount s + 1 < DWORD_MODULUS)%N ->
     GetStallCount s' = (GetStallCount s + 1)%N).
Proof.
  intros a b c d s.
  apply (proj1 stall_injection s [d; c; b; a] [] true [d; c] b [a]); reflexivity.
Defined.

(** C2, as stated, fails: with one instruction ['a'] queued, the fifth call
    moves it from WriteBack to Completed and returns false. *)
Lemma writeback_to_completed_returns_false :
  let a := mkInstr 97 PS_WB false in
  let n st := mkInstr NOOP_INSTRUCTION st false in
  let s4 := mkSim 4 0 0 4 [n PS_IF; n PS_ID; n PS_EX; a] [] in
  calls 4 (insert_all CPipelineSim_new [CInstructionData_new 97 false])
    = Some ([true; true; true; true], s4) /\
  IsNOOP a = false /\
  admission s4 = ([CNoopInstruction; n PS_IF; n PS_ID; n PS_EX; a], [], false) /\
  stage_loop (rev [CNoopInstruction; n PS_IF; n PS_ID; n PS_EX; a])
      (mkVars false false 0 0)
    = ([SetState a PS_COMPLETED; n PS_WB; n PS_EX; n PS_ID; n PS_IF],
       mkVars false false 0 1) /\
  GetState (SetState a PS_COMPLETED) <> GetState a /\
  ProcessNextCycle s4 =
    Some (false, mkSim 5 0 1 4 [n PS_IF; n PS_ID; n PS_EX; n PS_WB] []).
Proof. vm_compute. repeat split; try reflexivity. discriminate. Qed.

(** C2 (amended).  A call returns true when it took an instruction from the
    queue, or when the pass visited a non-bubble record in Uninitialized,
    Fetch, Decode or Execute and moved it on; in a call that injects no stall
    it returns true in these cases only.  A move from WriteBack to Completed
    is not among them. *)
Theorem return_flag (s : CPipelineSim) lst que bRet :
  admission s = (lst, que, bRet) ->
  exists b s',
    ProcessNextCycle s = Some (b, s') /\
    (bRet = true <->
       exists x, m_queInstructions s = x :: que /\
                 lst = x :: m_lstInstructionPipeline s) /\
    (no_stall lst = true ->
       m_lstInstructionPipeline s' = retire (map advance lst) /\
       (b = true <->
          bRet = true \/
          exists x, x ∈ lst /\ IsNOOP x = false /\
            (GetState x = PS_INVALID \/ GetState x = PS_IF \/
             GetState x = PS_ID \/ GetState x = PS_EX))) /\
    (forall newer x older,
       lst = newer ++ x :: older -> no_stall older = true ->
       stalls_here x = true ->
       (bRet = true \/ existsb moves_on older = true) -> b = true).
Proof.
  intros Ha.
  assert (Hadm : bRet = true <->
       exists x, m_queInstructions s = x :: que /\
                 lst = x :: m_lstInstructionPipeline s).
  { destruct (admission_cases _ _ _ _ Ha)
      as [(x & -> & E & ->)|[(-> & E & -> & ->)|(-> & -> & ->)]].
    - split; eauto.
    - split; [discriminate|]. intros (x & E' & _). congruence.
    - split; [discriminate|]. intros (x & E' & _).
      apply (f_equal length) in E'. simpl in E'. lia. }
  assert (Hmoves : forall l, existsb moves_on l = true <->
          exists x, x ∈ l /\ IsNOOP x = false /\
            (GetState x = PS_INVALID \/ GetState x = PS_IF \/
             GetState x = PS_ID \/ GetState x = PS_EX)).
  { intros l. rewrite existsb_exists. split.
    - intros (x & Hin & Hm). exists x. split; [now apply list_elem_of_In|].
      unfold moves_on, real in Hm. apply andb_prop in Hm as [Hr Hm].
      apply negb_true_iff in Hr. split; [exact Hr|].
      destruct (GetState x); auto; discriminate.
    - intros (x & Hin & Hr & Hm). exists x. split; [now apply list_elem_of_In|].
      unfold moves_on, real. rewrite Hr.
      destruct Hm as [-> | [-> | [-> | ->]]]; reflexivity. }
  destruct (ProcessNextCycle_cases s) as (lst' & que' & bRet' & Ha' & Hc).
  rewrite Ha in Ha'. injection Ha' as <- <- <-.
  destruct Hc as [Hn|(newer & x & older & Hl & Hn & Hx)].
  - eexists _, _. split; [apply (ProcessNextCycle_free _ _ _ _ Ha Hn)|].
    split; [exact Hadm|]. split.
    + intros _. split; [reflexivity|]. rewrite <- Hmoves, orb_true_iff. reflexivity.
    + intros newer x older Hl Ho Hx _. exfalso.
      rewrite Hl, no_stall_app in Hn. apply andb_prop in Hn as [_ Hn].
      unfold no_stall in Hn. simpl in Hn. now rewrite Hx in Hn.
  - eexists _, _. split; [apply (ProcessNextCycle_stall _ _ _ _ _ _ _ Ha Hl Hn Hx)|].
    split; [exact Hadm|]. split.
    + intros Hfree. exfalso.
      rewrite Hl, no_stall_app in Hfree. apply andb_prop in Hfree as [_ Hfree].
      unfold no_stall in Hfree. simpl in Hfree. now rewrite Hx in Hfree.
    + intros newer' x' older' Hl' Ho' Hx' Hm.
      assert (older' = older) as ->.
      { rewrite Hl in Hl'. clear - Hl' Hn Ho' Hx Hx'.
        apply (f_equal (@rev _)) in Hl'. rewrite !rev_app_distr in Hl'. simpl in Hl'.
        rewrite <- !app_assoc in Hl'. simpl in Hl'.
        rewrite <- no_stall_rev in Hn, Ho'.
        assert (rev older = rev older') as E.
        { revert Hl' Hn Ho'. generalize (rev older) (rev older') (rev newer) (rev newer').
          clear - Hx Hx'. unfold no_stall.
          induction l as [|a l IH]; intros [|a' l'] n n' E H1 H2; simpl in *;
            try reflexivity.
          - injection E as -> _. rewrite Hx in H2. discriminate.
          - injection E as -> _. rewrite Hx' in H1. discriminate.
          - injection E as -> E. apply andb_prop in H1 as [_ H1].
            apply andb_prop in H2 as [_ H2]. f_equal. eapply IH; eauto. }
        apply (f_equal (@rev _)) in E. now rewrite !rev_involutive in E. }
      apply orb_true_iff. destruct Hm; auto.
Qed.

Lemma return_flag_witness :
  let n st := mkInstr NOOP_INSTRUCTION st false in
  let s := mkSim 3 0 0 4 [n PS_IF; n PS_ID; mkInstr 97 PS_EX false] [] in
  let lst := [CNoopInstruction; n PS_IF; n PS_ID; mkInstr 97 PS_EX false] in
  exists b s',
    ProcessNextCycle s = Some (b, s') /\
    (false = true <->
       exists x, m_queInstructions s = x :: [] /\
                 lst = x :: m_lstInstructionPipeline s) /\
    (no_stall lst = true ->
       m_lstInstructionPipeline s' = retire (map advance lst) /\
       (b = true <->
          false = true \/
          exists x, x ∈ lst /\ IsNOOP x = false /\
            (GetState x = PS_INVALID \/ GetState x = PS_IF \/
             GetState x = PS_ID \/ GetState x = PS_EX))) /\
    (forall newer x older,
       lst = newer ++ x :: older -> no_stall older = true ->
       stalls_here x = true ->
       (false = true \/ existsb moves_on older = true) -> b = true).
Proof.
  intros n s lst. apply (return_flag s lst [] false). reflexivity.
Defined.


(** C4.  Queue [k >= 1] instructions, none flagged, into a new simulator.
    Then [ProcessNextCycle] returns true on the first [k + 3] calls and false
    on call [k + 4], and the stall counter is 0 after any number of calls. *)
Theorem independent_chain (ids : list Z) :
  ids <> [] ->
  Forall (fun c => c <> NOOP_INSTRUCTION) ids ->
  let s0 := insert_all CPipelineSim_new
              (map (fun c => CInstructionData_new c false) ids) in
  let k := length ids in
  (exists s', calls (k + 4) s0 = Some (replicate (k + 3) true ++ [false], s')) /\
  (forall j bs sj, calls j s0 = Some (bs, sj) -> GetStallCount sj = 0%N).
Proof.
  intros Hne Hids s0 k.
  pose proof (fresh_queue (fun _ => false) ids Hids) as Hq.
  assert (Hf : flag_ok false (map (fun c => CInstructionData_new c false) ids) = true).
  { destruct ids as [|c ids]; [reflexivity|]. simpl in *.
    apply andb_prop in Hq as [Hc Hq]. unfold fresh_instr in Hc.
    apply andb_prop in Hc as [-> _]. now apply flag_ok_real. }
  pose proof (sim_inv_start _ Hq Hf) as Hs0. fold s0 in Hs0.
  assert (Hleft : calls_left s0 = (k + 3)%nat).
  { unfold s0. rewrite calls_left_start, flagged_count_const, length_map.
    destruct ids; [congruence|]. subst k. simpl. lia. }
  assert (Hflags : flags_left s0 = O).
  { unfold s0. rewrite insert_all_queue. unfold flags_left. simpl.
    now rewrite flagged_count_const. }
  split.
  - destruct (run_exact _ s0 Hs0 Hleft) as (s' & Hc & _).
    exists s'. replace (k + 4)%nat with (S (k + 3)) by lia. exact Hc.
  - intros j bs sj Hj.
    destruct (calls_inv j s0 Hs0) as (bs' & sj' & Hj' & _ & Hst).
    rewrite Hj in Hj'. injection Hj' as <- <-.
    unfold GetStallCount. rewrite (Hst Hflags). unfold s0.
    now rewrite insert_all_queue.
Qed.

Lemma independent_chain_witness :
  let s0 := insert_all CPipelineSim_new
              (map (fun c => CInstructionData_new c false) [97; 98; 99]) in
  (exists s', calls (3 + 4) s0 = Some (replicate (3 + 3) true ++ [false], s')) /\
  (forall j bs sj, calls j s0 = Some (bs, sj) -> GetStallCount sj = 0%N).
Proof.
  apply (independent_chain [97; 98; 99]).
  - discriminate.
  - repeat constructor; discriminate.
Defined.

(** C5.  Queue [k >= 1] instructions into a new simulator, every one after
    the first flagged.  Then [ProcessNextCycle] returns true on the first
    [k + 3 + (k - 1) = 2k + 2] calls and false on the next one, and the stall
    counter then holds [k - 1] (as a 32-bit counter: [k - 1] modulo [2^32]). *)
Theorem dependent_chain (c0 : Z) (ids : list Z) :
  Forall (fun c => c <> NOOP_INSTRUCTION) (c0 :: ids) ->
  let s0 := insert_all CPipelineSim_new
              (CInstructionData_new c0 false
               :: map (fun c => CInstructionData_new c true) ids) in
  let k := S (length ids) in
  exists s',
    calls (k + 3 + (k - 1) + 1) s0
      = Some (replicate (k + 3 + (k - 1)) true ++ [false], s') /\
    (k + 3 + (k - 1) = 2 * k + 2)%nat /\
    GetStallCount s' = (N.of_nat (k - 1) mod DWORD_MODULUS)%N /\
    ((N.of_nat (k - 1) < DWORD_MODULUS)%N -> GetStallCount s' = N.of_nat (k - 1)).
Proof.
  intros Hids s0 k.
  assert (Hq : forallb fresh_instr
                 (CInstructionData_new c0 false
                  :: map (fun c => CInstructionData_new c true) ids) = true).
  { inversion Hids as [|? ? Hc0 Hrest]; subst.
    pose proof (fresh_queue (fun _ => true) ids Hrest) as Hq.
    pose proof (fresh_queue (fun _ => false) [c0] ltac:(repeat constructor; exact Hc0)) as H0.
    simpl in *. now rewrite Hq, andb_true_r in *. }
  assert (Hf : flag_ok false
                 (CInstructionData_new c0 false
                  :: map (fun c => CInstructionData_new c true) ids) = true).
  { simpl in *. apply andb_prop in Hq as [Hc Hq]. unfold fresh_instr in Hc.
    apply andb_prop in Hc as [-> _]. now apply flag_ok_real. }
  pose proof (sim_inv_start _ Hq Hf) as Hs0. fold s0 in Hs0.
  assert (Hflags : flags_left s0 = (k - 1)%nat).
  { unfold s0. rewrite insert_all_queue. unfold flags_left, flagged_count. simpl.
    fold (flagged_count (map (fun c => CInstructionData_new c true) ids)).
    rewrite flagged_count_const. subst k. lia. }
  assert (Hleft : calls_left s0 = (k + 3 + (k - 1))%nat).
  { unfold s0. rewrite calls_left_start. unfold flagged_count. simpl.
    fold (flagged_count (map (fun c => CInstructionData_new c true) ids)).
    rewrite flagged_count_const, length_map. subst k. lia. }
  destruct (run_exact _ s0 Hs0 Hleft) as (s' & Hc & _ & _ & Hst).
  exists s'. split; [replace (k + 3 + (k - 1) + 1)%nat with (S (k + 3 + (k - 1))) by lia;
                     exact Hc|].
  split; [lia|].
  assert (E : GetStallCount s' = (N.of_nat (k - 1) mod DWORD_MODULUS)%N).
  { unfold GetStallCount. rewrite Hst, Hflags. unfold s0. rewrite insert_all_queue.
    simpl. apply iter_dword_inc. }
  split; [exact E|]. intros Hlt. rewrite E. now apply N.mod_small.
Qed.

Lemma dependent_chain_witness :
  let s0 := insert_all CPipelineSim_new
              (CInstructionData_new 97 false
               :: map (fun c => CInstructionData_new c true) [98; 99]) in
  exists s',
    calls (3 + 3 + (3 - 1) + 1) s0
      = Some (replicate (3 + 3 + (3 - 1)) true ++ [false], s') /\
    (3 + 3 + (3 - 1) = 2 * 3 + 2)%nat /\
    GetStallCount s' = (N.of_nat (3 - 1) mod DWORD_MODULUS)%N /\
    ((N.of_nat (3 - 1) < DWORD_MODULUS)%N -> GetStallCount s' = N.of_nat (3 - 1)).
Proof.
  apply (dependent_chain 97 [98; 99]). repeat constructor; discriminate.
Defined.

(** C9.  Whatever records are queued into a new simulator, polling stops:
    some call returns false after at most [work] calls that returned true, and
    the polling loop of the driver ends there.  Along the way the queue only
    loses elements from its front, and the stall counter never exceeds the
    number of flagged records queued. *)
Theorem polling_terminates (instrs : list CInstructionData) :
  let s0 := insert_all CPipelineSim_new instrs in
  (exists n s',
     (n <= work s0)%nat /\
     calls (S n) s0 = Some (replicate n true ++ [false], s') /\
     forall fuel, (n < fuel)%nat -> poll fuel s0 = Some (n, s')) /\
  (forall i j bsi si bsj sj,
     calls i s0 = Some (bsi, si) -> calls (i + j) s0 = Some (bsj, sj) ->
     (exists taken, m_queInstructions si = taken ++ m_queInstructions sj) /\
     (length (m_queInstructions sj) <= length (m_queInstructions si))%nat) /\
  (forall j bs sj,
     calls j s0 = Some (bs, sj) ->
     (GetStallCount sj <= N.of_nat (flagged_count instrs))%N).
Proof.
  intros s0. split; [|split].
  - destruct (first_false (work s0) s0 (le_n _)) as (n & s' & Hn & Hc).
    exists n, s'. split; [exact Hn|]. split; [exact Hc|].
    intros fuel Hfuel. now apply poll_calls.
  - intros i j bsi si bsj sj Hi Hij. rewrite calls_app, Hi in Hij.
    destruct (calls j si) as [[bs' sj']|] eqn:Hj; [|discriminate].
    injection Hij as _ <-.
    destruct (calls_monotone _ _ _ _ Hj) as [[taken Ht] _].
    split; [eauto|]. rewrite Ht, length_app. lia.
  - intros j bs sj Hj.
    destruct (calls_monotone _ _ _ _ Hj) as [_ Hs].
    unfold s0 in Hs. rewrite insert_all_queue in Hs.
    unfold flags_left in Hs. simpl in Hs. unfold GetStallCount.
    unfold flagged_count in *. lia.
Qed.

Lemma polling_terminates_witness :
  let s0 := insert_all CPipelineSim_new
              [CInstructionData_new 97 false; CInstructionData_new 98 true] in
  exists n s',
    (n <= work s0)%nat /\
    calls (S n) s0 = Some (replicate n true ++ [false], s') /\
    forall fuel, (n < fuel)%nat -> poll fuel s0 = Some (n, s').
Proof.
  apply (polling_terminates
           [CInstructionData_new 97 false; CInstructionData_new 98 true]).
Defined.

(** C10.  Every call is defined: the list is never empty when its back
    element is inspected, in any state and so after any interleaving of
    [InsertInstruction] and [ProcessNextCycle] calls on a new simulator.  With
    nothing queued and nothing in flight the call increments the cycle
    counter, leaves one bubble (fetched in that same call) in the list and
    returns false. *)
Theorem retirement_safe :
  (forall s lst que bRet,
     admission s = (lst, que, bRet) ->
     lst <> [] /\
     fst (stage_loop (rev lst)
            (mkVars bRet false (m_dwStallCtr s) (m_dwCompletedCtr s))) <> []) /\
  (forall s, is_Some (ProcessNextCycle s)) /\
  (forall ops, is_Some (run_sim CPipelineSim_new ops)) /\
  (forall cyc st co depth,
     admission (mkSim cyc st co depth [] []) = ([CNoopInstruction], [], false) /\
     ProcessNextCycle (mkSim cyc st co depth [] [])
       = Some (false,
               mkSim (dword_inc cyc) st co depth [CNoopInstruction_in PS_IF] [])).
Proof.
  split; [|split; [|split]].
  - intros s lst que bRet Ha.
    pose proof (admission_nonempty _ _ _ _ Ha) as Hne. split; [exact Hne|].
    assert (Hrev : rev lst <> []).
    { intros E. apply Hne. apply (f_equal (@rev _)) in E.
      now rewrite rev_involutive in E. }
    destruct (first_stall (rev lst)) as [Hn|(o & x & n & E & Ho & Hx)].
    + rewrite stage_loop_free by assumption. simpl.
      destruct (rev lst); [congruence | discriminate].
    + rewrite E, stage_loop_stall by assumption. simpl.
      destruct (map advance o); discriminate.
  - apply ProcessNextCycle_is_Some.
  - intros ops. generalize CPipelineSim_new.
    induction ops as [|[x|] ops IH]; intros s; simpl.
    + eauto.
    + apply IH.
    + destruct (ProcessNextCycle_is_Some s) as [[b s'] ->]. apply IH.
  - intros cyc st co depth. destruct depth; split; reflexivity.
Qed.

Lemma retirement_safe_witness :
  is_Some (run_sim CPipelineSim_new
             [OpCycle; OpInsert (CInstructionData_new 97 true); OpCycle; OpCycle;
              OpCycle; OpInsert (CInstructionData_new 98 true); OpCycle]) /\
  ProcessNextCycle CPipelineSim_new
    = Some (false, mkSim 1 0 0 4 [CNoopInstruction_in PS_IF] []).
Proof.
  split.
  - apply (proj1 (proj2 (proj2 retirement_safe))).
  - apply (proj2 (proj2 (proj2 (proj2 retirement_safe)) 0%N 0%N 0%N 4%N)).
Defined.

End PipelineClaims.

(** ** The driver *)

Module DriverFacts.

Import Graph GraphSpec GraphFacts Pipeline PipelineSpec PipelineFacts RunFacts
       PollFacts Driver DriverSpec.

Lemma queue_instructions_insert_all l : forall sim,
  foldl (fun sim it =>
           if IsValid it then
             let bDataDependent := if depends_on_previous it then true else false in
             let idNode := GetNodeID it in
             snd (InsertInstruction sim (CInstructionData_new idNode bDataDependent))
           else sim) sim l
  = insert_all sim (instructions_of l).
Proof.
  induction l as [|it l IH]; intros sim; simpl; [reflexivity|].
  rewrite IH. destruct (IsValid it); [|reflexivity].
  simpl. now destruct (depends_on_previous it).
Qed.

Lemma stalls_required_count l : forall acc,
  foldl (fun iNumStalls it =>
           if IsValid it then
             if depends_on_previous it then iNumStalls + 1 else iNumStalls
           else iNumStalls) acc l
  = acc + Z.of_nat (flagged_count (instructions_of l)).
Proof.
  unfold flagged_count.
  induction l as [|it l IH]; intros acc; simpl; [lia|].
  rewrite IH. destruct (IsValid it); [|reflexivity].
  simpl. destruct (depends_on_previous it); simpl; lia.
Qed.

Lemma instructions_of_length l : length (instructions_of l) = count_valid l.
Proof.
  induction l as [|it l IH]; simpl; [reflexivity|].
  destruct (IsValid it); simpl; now rewrite IH.
Qed.

Lemma flagged_count_le l : (flagged_count l <= length l)%nat.
Proof.
  unfold flagged_count. induction l as [|x l IH]; simpl; [lia|].
  destruct (IsDataDependent x); lia.
Qed.

Lemma instructions_fresh l :
  (forall i n, l !! i = Some n -> IsValid n = true -> IsValidNodeID (m_ID n) = true) ->
  forallb fresh_instr (instructions_of l) = true.
Proof.
  induction l as [|it l IH]; intros H; simpl; [reflexivity|].
  assert (IHl : forallb fresh_instr (instructions_of l) = true).
  { apply IH. intros i n. apply (H (S i)). }
  destruct (IsValid it) eqn:Hv; [|exact IHl].
  simpl. rewrite IHl, andb_true_r.
  pose proof (H O it eq_refl Hv) as Hid. apply valid_id_bounds in Hid.
  unfold fresh_instr, real, IsNOOP, NOOP_INSTRUCTION, GetNodeID. simpl.
  rewrite andb_true_r. apply negb_true_iff, Z.eqb_neq. lia.
Qed.

(** The first record queued comes from the first valid slot. *)
Lemma instructions_first l x rest :
  instructions_of l = x :: rest ->
  exists i n, l !! i = Some n /\ IsValid n = true /\
    x = CInstructionData_new (GetNodeID n) (depends_on_previous n) /\
    forall j m, (j < i)%nat -> l !! j = Some m -> IsValid m = false.
Proof.
  induction l as [|it l IH]; simpl; [discriminate|].
  destruct (IsValid it) eqn:Hv.
  - intros [= <- <-]. exists O, it. repeat split; auto. intros j m Hj. lia.
  - intros H. destruct (IH H) as (i & n & Hi & Hn & Hx & Hfirst).
    exists (S i), n. repeat split; auto.
    intros [|j] m Hj Hm; simpl in Hm.
    + now injection Hm as <-.
    + apply (Hfirst j m); [lia | exact Hm].
Qed.

Lemma edges_closed_spec g :
  edges_closed g = true ->
  forall i n d, m_vNodes g !! i = Some n -> is_Some (m_setEdges n !! d) ->
    HasNode g d = true.
Proof.
  unfold edges_closed. rewrite forallb_forall.
  intros H i n d Hi [w Hw].
  assert (Hin : In n (m_vNodes g)).
  { apply list_elem_of_In. eapply list_elem_of_lookup_2; eauto. }
  specialize (H n Hin). rewrite forallb_forall in H.
  apply (H (d, w)). apply list_elem_of_In. now apply elem_of_map_to_list.
Qed.

(** In the alphabet, the identity one below has the slot one below. *)
Lemma index_of_previous x :
  IsValidNodeID x = true -> IsValidNodeID (x - 1) = true ->
  (GetNodeIndex (x - 1) + 1 = GetNodeIndex x)%N.
Proof.
  intros Hx Hp.
  destruct (index_of_valid _ Hx) as [-> _]. destruct (index_of_valid _ Hp) as [-> _].
  apply valid_id_bounds in Hx, Hp. unfold tolower.
  destruct ((65 <=? x) && (x <=? 90)) eqn:E1;
    destruct ((65 <=? x - 1) && (x - 1 <=? 90)) eqn:E2; lia.
Qed.

(** With every edge leading to an added node, the first instruction queued
    is not flagged. *)
Lemma first_instruction_unflagged g x rest :
  graph_inv g -> edges_closed g = true ->
  instructions_of (m_vNodes g) = x :: rest -> IsDataDependent x = false.
Proof.
  intros Hg Hclosed Hx. pose proof (edges_closed_spec g Hclosed) as Hcl.
  destruct (instructions_first _ _ _ Hx) as (i & n & Hi & Hn & -> & Hfirst).
  simpl. destruct (depends_on_previous n) eqn:Hdep; [exfalso | reflexivity].
  unfold depends_on_previous, HasEdge, GetNodeID in Hdep. cbv zeta in Hdep.
  destruct (m_setEdges n !! (m_ID n - 1)) as [w|] eqn:He; [|discriminate].
  pose proof (Hcl i n (m_ID n - 1) Hi ltac:(rewrite He; eauto)) as Hnode.
  destruct (inv_slot g Hg i n Hi Hn) as [Hid Hidx].
  unfold HasNode in Hnode. cbv zeta in Hnode.
  destruct (IsValidNodeIndex g (GetNodeIndex (m_ID n - 1))) eqn:Hvi; [|discriminate].
  pose proof (valid_index_valid_id g _ Hg Hvi) as Hprev.
  pose proof (index_of_previous _ Hid Hprev) as Hstep.
  pose proof (valid_index_in_range g _ Hg Hvi) as Hlt.
  pose proof (node_at_lookup g _ Hlt) as Hat.
  assert (Hj : (N.to_nat (GetNodeIndex (m_ID n - 1)) < i)%nat) by lia.
  rewrite (Hfirst _ _ Hj Hat) in Hnode. discriminate.
Qed.

Lemma instructions_flag_ok g :
  graph_inv g -> edges_closed g = true ->
  forallb fresh_instr (instructions_of (m_vNodes g)) = true /\
  flag_ok false (instructions_of (m_vNodes g)) = true.
Proof.
  intros Hg Hclosed.
  assert (Hq : forallb fresh_instr (instructions_of (m_vNodes g)) = true).
  { apply instructions_fresh. intros i n Hi Hn. apply (inv_slot g Hg i n Hi Hn). }
  split; [exact Hq|].
  destruct (instructions_of (m_vNodes g)) as [|x rest] eqn:E; [reflexivity|].
  simpl. rewrite (first_instruction_unflagged g x rest Hg Hclosed E). simpl.
  simpl in Hq. apply andb_prop in Hq as [Hx Hq].
  unfold fresh_instr in Hx. apply andb_prop in Hx as [-> _].
  now apply flag_ok_real.
Qed.


End DriverFacts.

Module DriverClaims.

Import Graph GraphSpec GraphFacts Pipeline PipelineSpec PipelineFacts RunFacts
       PollFacts Driver DriverSpec DriverFacts.

(** C3.  Take a graph built by any sequence of [AddNode] and [AddEdge] calls
    in which every edge leads to a node that has been added.  Then the driver's
    simulation on a new simulator ends, and the stall counter it leaves equals
    the number [CalculateNumberOfStallsRequired] computes from the graph.  When
    the graph has a node, the number of calls that returned true is the figure
    the driver reports, [CalculatePartialOverlappedExecutionCycles]. *)
Theorem stalls_agree (nMaxNodes : N) (ops : list graph_op) :
  let dag := run_ops (CDependencyGraph_new nMaxNodes) ops in
  edges_closed dag = true ->
  exists (cycles : nat) (sim' : CPipelineSim),
    (forall fuel, (cycles < fuel)%nat ->
       ExecutePipelineSimulation fuel CPipelineSim_new dag = Some (cycles, sim')) /\
    Z.of_N (GetStallCount sim') = CalculateNumberOfStallsRequired dag /\
    0 <= CalculateNumberOfStallsRequired dag <= 25 /\
    ((0 < GetNumNodes dag)%N ->
       Z.of_nat cycles = CalculatePartialOverlappedExecutionCycles dag).
Proof.
  intros dag Hclosed.
  assert (Hg : graph_inv dag) by apply graph_inv_reachable.
  destruct (instructions_flag_ok dag Hg Hclosed) as [Hq Hf].
  set (instrs := instructions_of (m_vNodes dag)) in *.
  pose proof (sim_inv_start instrs Hq Hf) as Hs0.
  destruct (run_exact _ _ Hs0 eq_refl) as (sim' & Hc & _ & _ & Hst).
  assert (Hstatic : CalculateNumberOfStallsRequired dag
                    = Z.of_nat (flagged_count instrs)).
  { unfold CalculateNumberOfStallsRequired. rewrite stalls_required_count.
    apply Z.add_0_l. }
  assert (Hlen : length instrs = N.to_nat (GetNumNodes dag)).
  { unfold instrs, GetNumNodes. rewrite instructions_of_length, (inv_count dag Hg). lia. }
  pose proof (num_nodes_bound dag Hg) as Hnum. fold (GetNumNodes dag) in Hnum.
  pose proof (flagged_count_le instrs) as Hle.
  exists (calls_left (insert_all CPipelineSim_new instrs)), sim'.
  split; [|split; [|split]].
  - intros fuel Hfuel. unfold ExecutePipelineSimulation, queue_instructions.
    rewrite queue_instructions_insert_all. fold instrs. now apply poll_calls.
  - rewrite Hstatic. unfold GetStallCount. rewrite Hst.
    rewrite insert_all_queue. unfold flags_left. simpl.
    change (flagged_count []) with O. simpl.
    rewrite iter_dword_inc, N.mod_small; [lia|].
    unfold DWORD_MODULUS. eapply N.le_lt_trans with 25%N; [lia | reflexivity].
  - rewrite Hstatic. lia.
  - intros Hpos. rewrite calls_left_start.
    unfold CalculatePartialOverlappedExecutionCycles. rewrite Hstatic.
    destruct instrs; simpl in *; lia.
Qed.

Lemma stalls_agree_witness :
  let dag := run_ops (CDependencyGraph_new 25)
               [OpAddNode 97; OpAddNode 98; OpAddNode 99; OpAddNode 100;
                OpAddNode 101; OpAddNode 102;
                OpAddEdge 98 97 1; OpAddEdge 101 100 1] in
  exists (cycles : nat) (sim' : CPipelineSim),
    (forall fuel, (cycles < fuel)%nat ->
       ExecutePipelineSimulation fuel CPipelineSim_new dag = Some (cycles, sim')) /\
    Z.of_N (GetStallCount sim') = CalculateNumberOfStallsRequired dag /\
    0 <= CalculateNumberOfStallsRequired dag <= 25 /\
    ((0 < GetNumNodes dag)%N ->
       Z.of_nat cycles = CalculatePartialOverlappedExecutionCycles dag).
Proof.
  apply (stalls_agree 25
           [OpAddNode 97; OpAddNode 98; OpAddNode 99; OpAddNode 100;
            OpAddNode 101; OpAddNode 102;
            OpAddEdge 98 97 1; OpAddEdge 101 100 1]).
  vm_compute. reflexivity.
Defined.

(** Without that condition on the edges the two counts can differ: with the
    nodes ['c'] and ['d'] and the edges [c -> b] and [d -> c], where ['b'] was
    never added, the graph gives 2 and the simulation stops after one stall. *)
Example stalls_differ_on_dangling_edge :
  let dag := run_ops (CDependencyGraph_new 25)
               [OpAddNode 99; OpAddNode 100; OpAddEdge 99 98 1; OpAddEdge 100 99 1] in
  edges_closed dag = false /\
  CalculateNumberOfStallsRequired dag = 2 /\
  exists sim', ExecutePipelineSimulation 10 CPipelineSim_new dag = Some (2%nat, sim') /\
               GetStallCount sim' = 1%N.
Proof. vm_compute. eauto. Qed.

(** The worked example: instructions [a b c d e f], with [b] depending on
    [a] and [e] on [d]. *)
Example textbook_scenario :
  let dag := snd (LoadData [97; 98; 99; 100; 101; 102] [(98, 97); (101, 100)]
                           (CDependencyGraph_new 25)) in
  CalculateNumberOfStallsRequired dag = 2 /\
  CalculateSequentialExecutionCycles dag = 24 /\
  CalculateCompleteOverlappedExecutionCycles dag = 9 /\
  CalculatePartialOverlappedExecutionCycles dag = 11 /\
  exists sim', ExecutePipelineSimulation 12 CPipelineSim_new dag = Some (11%nat, sim') /\
               GetStallCount sim' = 2%N /\ GetCompletionCount sim' = 6%N /\
               GetCycle sim' = 12%N.
Proof. vm_compute. eauto 10. Qed.

End DriverClaims.

(** ** Further properties of the dependency graph *)

Module GraphExtras.

Import Graph GraphSpec GraphFacts GraphMore.

Lemma HasNode_true g x :
  HasNode g x = true <->
  IsValidNodeIndex g (GetNodeIndex x) = true /\
  IsValid (node_at g (GetNodeIndex x)) = true.
Proof.
  unfold HasNode. cbv zeta.
  destruct (IsValidNodeIndex g (GetNodeIndex x)); split; try tauto;
    try discriminate; intros [? ?]; discriminate.
Qed.

Lemma sum_edges_replicate n : sum_edges (replicate n CGraphNode_default) = 0%N.
Proof. induction n; simpl; auto. Qed.

Lemma AddNode_registers g x :
  graph_inv g ->
  (fst (AddNode g x) = true -> HasNode (snd (AddNode g x)) x = true) /\
  (fst (AddNode g x) = false -> snd (AddNode g x) = g).
Proof.
  intros Hg. destruct (AddNode_cases g x Hg) as [(Hn & Hi & Hx & E)|[_ E]].
  - split; [intros _ | rewrite E; discriminate].
    apply HasNode_true. rewrite E. simpl. split; [exact Hi|].
    rewrite node_at_insert_eq by (eapply valid_index_in_range; eauto).
    unfold IsValid, INVALID_NODE_ID. simpl. apply valid_id_bounds in Hx.
    apply negb_true_iff, Z.eqb_neq. lia.
  - rewrite E. split; [discriminate | reflexivity].
Qed.

(** X1.  [AddNode] in terms of the queries.  A call returns true exactly when the
    identity is a letter of the alphabet whose slot exists and holds no node
    yet.  A call that returns true registers
    [x] under the identity given, and changes neither another identity's
    registration, nor any edge, nor the edge count; a call that returns false
    changes nothing. *)
Theorem AddNode_effect (nMaxNodes : N) (ops : list graph_op) (x : Z) :
  let g := run_ops (CDependencyGraph_new nMaxNodes) ops in
  let r := AddNode g x in
  (fst r = true <->
     IsValidNodeID x = true /\ IsValidNodeIndex g (GetNodeIndex x) = true /\
     HasNode g x = false) /\
  (fst r = false -> snd r = g) /\
  (fst r = true ->
     HasNode (snd r) x = true /\
     GetNodeID (node_at (snd r) (GetNodeIndex x)) = x /\
     (forall y, GetNodeIndex y <> GetNodeIndex x ->
        HasNode (snd r) y = HasNode g y) /\
     (forall i d, EdgeWeight (node_at (snd r) i) d = EdgeWeight (node_at g i) d) /\
     GetNumNodes (snd r) = (GetNumNodes g + 1)%N /\
     GetNumEdges (snd r) = GetNumEdges g /\
     m_nMaxNodes (snd r) = m_nMaxNodes g).
Proof.
  intros g r. assert (Hg : graph_inv g) by apply graph_inv_reachable.
  assert (Hg' : graph_inv (snd r)) by (apply graph_inv_AddNode; exact Hg).
  subst r. destruct (AddNode_cases g x Hg) as [(Hn & Hi & Hx & E)|[Hc E]].
  2:{ rewrite E. simpl. split; [|split; [reflexivity | discriminate]].
      split; [discriminate|]. intros (Hx & Hi & Hn). destruct Hc; congruence. }
  split; [rewrite E; simpl; tauto|]. split; [rewrite E; discriminate|]. intros _.
  pose proof (valid_index_in_range g _ Hg Hi) as Hlt.
  pose proof (node_at_lookup g _ Hlt) as Hat.
  assert (Hold : IsValid (node_at g (GetNodeIndex x)) = false).
  { unfold HasNode in Hn. cbv zeta in Hn. now rewrite Hi in Hn. }
  assert (Hnew : node_at (snd (AddNode g x)) (GetNodeIndex x)
                 = SetNodeID (node_at g (GetNodeIndex x)) x).
  { rewrite E. simpl. now apply node_at_insert_eq. }
  assert (Hother : forall i, i <> GetNodeIndex x ->
            node_at (snd (AddNode g x)) i = node_at g i).
  { intros i Hne. rewrite E. simpl. apply node_at_insert_ne. congruence. }
  split; [|split; [|split; [|split; [|split; [|split]]]]].
  - apply HasNode_true. rewrite Hnew. split.
    + rewrite E. exact Hi.
    + unfold IsValid, INVALID_NODE_ID. simpl. apply valid_id_bounds in Hx. lia.
  - now rewrite Hnew.
  - intros y Hy. unfold HasNode. cbv zeta. rewrite Hother by assumption.
    rewrite E. reflexivity.
  - intros i d. destruct (N.eq_dec i (GetNodeIndex x)) as [->|Hne].
    + now rewrite Hnew.
    + now rewrite Hother.
  - rewrite E. reflexivity.
  - rewrite !GetNumEdges_sum by assumption. rewrite E. simpl.
    pose proof (sum_edges_insert (m_vNodes g) _
                  (SetNodeID (node_at g (GetNodeIndex x)) x) _ Hat) as Hs.
    unfold NodeGetNumEdges in Hs. rewrite Hold in Hs.
    destruct (IsValid (SetNodeID _ x)) eqn:Hv; [|lia].
    simpl in Hs.
    assert (Hempty : m_setEdges (node_at g (GetNodeIndex x)) = ∅).
    { apply map_eq. intros d. rewrite lookup_empty.
      destruct (m_setEdges (node_at g (GetNodeIndex x)) !! d) eqn:Hd; [|reflexivity].
      destruct (inv_edges g Hg _ _ d Hat ltac:(rewrite Hd; eauto)) as [_ Hbad].
      congruence. }
    rewrite Hempty, map_size_empty in Hs. lia.
  - rewrite E. reflexivity.
Qed.

(** X2.  [AddEdge] in terms of the queries.  The call returns true exactly when
    both identities are in the alphabet, the source has been added and holds
    no edge to that destination yet; it then stores the weight for that
    destination and changes no other edge and no node.  A call that returns
    false changes nothing. *)
Theorem AddEdge_effect (nMaxNodes : N) (ops : list graph_op) (a b w : Z) :
  let g := run_ops (CDependencyGraph_new nMaxNodes) ops in
  let r := AddEdge g a b w in
  (fst r = true <->
     IsValidNodeID a = true /\ IsValidNodeID b = true /\ HasNode g a = true /\
     HasEdge (node_at g (GetNodeIndex a)) b = false) /\
  (fst r = false -> snd r = g) /\
  (fst r = true ->
     EdgeWeight (node_at (snd r) (GetNodeIndex a)) b = Some w /\
     (forall i d, i <> GetNodeIndex a \/ d <> b ->
        EdgeWeight (node_at (snd r) i) d = EdgeWeight (node_at g i) d) /\
     (forall y, HasNode (snd r) y = HasNode g y) /\
     GetNumNodes (snd r) = GetNumNodes g /\
     GetNumEdges (snd r) = (GetNumEdges g + 1)%N).
Proof.
  intros g r. assert (Hg : graph_inv g) by apply graph_inv_reachable.
  assert (Hg' : graph_inv (snd r)) by (apply graph_inv_AddEdge; exact Hg).
  subst r. destruct (AddEdge_cases g a b w Hg) as [(Ha & Hb & Hn & He & E)|[Hc E]].
  2:{ rewrite E. simpl. split; [|split; [reflexivity | discriminate]].
      split; [discriminate|]. intros (Ha & Hb & Hn & He).
      destruct Hc as [Hc|[Hc|[Hc|Hc]]]; congruence. }
  split; [rewrite E; simpl; tauto|]. split; [rewrite E; discriminate|]. intros _.
  apply HasNode_true in Hn as [Hi Hv].
  pose proof (valid_index_in_range g _ Hg Hi) as Hlt.
  pose proof (node_at_lookup g _ Hlt) as Hat.
  assert (Hnew : node_at (snd (AddEdge g a b w)) (GetNodeIndex a)
                 = {| m_ID := m_ID (node_at g (GetNodeIndex a));
                      m_setEdges := <[b:=w]> (m_setEdges (node_at g (GetNodeIndex a))) |}).
  { rewrite E. simpl. now apply node_at_insert_eq. }
  assert (Hother : forall i, i <> GetNodeIndex a ->
            node_at (snd (AddEdge g a b w)) i = node_at g i).
  { intros i Hne. rewrite E. simpl. apply node_at_insert_ne. congruence. }
  split; [|split; [|split; [|split]]].
  - rewrite Hnew. unfold EdgeWeight. simpl. apply lookup_insert_eq.
  - intros i d Hid. destruct (N.eq_dec i (GetNodeIndex a)) as [->|Hne].
    + rewrite Hnew. unfold EdgeWeight. simpl.
      apply lookup_insert_ne. destruct Hid; congruence.
    + now rewrite Hother.
  - intros y. unfold HasNode. cbv zeta.
    replace (IsValidNodeIndex (snd (AddEdge g a b w)) (GetNodeIndex y))
      with (IsValidNodeIndex g (GetNodeIndex y)) by (rewrite E; reflexivity).
    destruct (N.eq_dec (GetNodeIndex y) (GetNodeIndex a)) as [->|Hne].
    + now rewrite Hnew.
    + now rewrite Hother.
  - rewrite E. reflexivity.
  - rewrite !GetNumEdges_sum by assumption. rewrite E. simpl.
    pose proof (sum_edges_insert (m_vNodes g) _
       {| m_ID := m_ID (node_at g (GetNodeIndex a));
          m_setEdges := <[b:=w]> (m_setEdges (node_at g (GetNodeIndex a))) |} _ Hat) as Hs.
    unfold NodeGetNumEdges in Hs. unfold IsValid at 2 in Hs. simpl in Hs.
    fold (IsValid (node_at g (GetNodeIndex a))) in Hs. rewrite Hv in Hs.
    rewrite map_size_insert_None in Hs; [lia|].
    unfold HasEdge in He. now destruct (m_setEdges _ !! b).
Qed.

Lemma AddEdge_effect_witness :
  let g := run_ops (CDependencyGraph_new 25) [OpAddNode 97; OpAddNode 98] in
  let r := AddEdge g 98 97 1 in
  EdgeWeight (node_at (snd r) (GetNodeIndex 98)) 97 = Some 1 /\
  (forall i d, i <> GetNodeIndex 98 \/ d <> 97 ->
     EdgeWeight (node_at (snd r) i) d = EdgeWeight (node_at g i) d) /\
  (forall y, HasNode (snd r) y = HasNode g y) /\
  GetNumNodes (snd r) = GetNumNodes g /\
  GetNumEdges (snd r) = (GetNumEdges g + 1)%N.
Proof.
  apply (proj2 (proj2 (AddEdge_effect 25 [OpAddNode 97; OpAddNode 98] 98 97 1))).
  vm_compute. reflexivity.
Defined.

Lemma AddNode_effect_witness :
  let g := run_ops (CDependencyGraph_new 25) [OpAddNode 97] in
  let r := AddNode g 66 in
  HasNode (snd r) 66 = true /\
  GetNodeID (node_at (snd r) (GetNodeIndex 66)) = 66 /\
  (forall y, GetNodeIndex y <> GetNodeIndex 66 ->
     HasNode (snd r) y = HasNode g y) /\
  (forall i d, EdgeWeight (node_at (snd r) i) d = EdgeWeight (node_at g i) d) /\
  GetNumNodes (snd r) = (GetNumNodes g + 1)%N /\
  GetNumEdges (snd r) = GetNumEdges g /\
  m_nMaxNodes (snd r) = m_nMaxNodes g.
Proof.
  apply (proj2 (proj2 (AddNode_effect 25 [OpAddNode 97] 66))). vm_compute. reflexivity.
Defined.


Lemma tolower_valid x : IsValidNodeID x = true -> IsValidNodeID (tolower x) = true.
Proof.
  intros H. apply valid_id_bounds in H. apply valid_id_bounds. unfold tolower.
  destruct ((65 <=? x) && (x <=? 90)) eqn:E; lia.
Qed.

(** X3.  Upper and lower case of a letter are one node, and two different letters
    never share a slot: identities of the alphabet with the same [tolower] have
    the same index, get the same answers from [HasNode] and [AddNode], and once
    one has been added the other is refused; identities with different
    [tolower] have different indices. *)
Theorem identity_case_folded (nMaxNodes : N) (ops : list graph_op) (x y : Z) :
  IsValidNodeID x = true -> IsValidNodeID y = true ->
  let g := run_ops (CDependencyGraph_new nMaxNodes) ops in
  (tolower x = tolower y ->
     GetNodeIndex x = GetNodeIndex y /\
     HasNode g x = HasNode g y /\
     fst (AddNode g x) = fst (AddNode g y) /\
     fst (AddNode (snd (AddNode g x)) y) = false) /\
  (tolower x <> tolower y -> GetNodeIndex x <> GetNodeIndex y).
Proof.
  intros Hx Hy g.
  destruct (index_of_valid x Hx) as [Ex _]. destruct (index_of_valid y Hy) as [Ey _].
  split.
  - intros Hxy. assert (Hidx : GetNodeIndex x = GetNodeIndex y) by (rewrite Ex, Ey, Hxy; reflexivity).
    assert (Hg : graph_inv g) by apply graph_inv_reachable.
    split; [exact Hidx|]. split; [unfold HasNode; now rewrite Hidx|].
    split; [unfold AddNode; rewrite Hidx;
            destruct (IsValidNodeIndex g (GetNodeIndex y)); [|reflexivity];
            destruct (IsValid (node_at g (GetNodeIndex y))); reflexivity|].
    assert (Hg1 : graph_inv (snd (AddNode g x))) by (apply graph_inv_AddNode; exact Hg).
    destruct (AddNode_cases (snd (AddNode g x)) y Hg1) as [(Hn & Hi & _ & _)|[_ E]];
      [|now rewrite E].
    exfalso.
    destruct (AddNode_registers g x Hg) as [Ht Hf].
    destruct (fst (AddNode g x)) eqn:Hr.
    + pose proof (Ht eq_refl) as Hh. unfold HasNode in Hh, Hn.
      rewrite Hidx in Hh. congruence.
    + rewrite (Hf eq_refl) in Hn, Hi.
      destruct (AddNode_cases g x Hg) as [(_ & _ & _ & E)|[[Hc|Hc] _]].
      * rewrite E in Hr. discriminate.
      * unfold HasNode in Hc, Hn. rewrite Hidx in Hc. congruence.
      * rewrite Hidx in Hc. congruence.
  - intros Hne. rewrite Ex, Ey.
    apply valid_id_bounds in Hx, Hy. unfold tolower in *.
    destruct ((65 <=? x) && (x <=? 90)) eqn:E1;
      destruct ((65 <=? y) && (y <=? 90)) eqn:E2; lia.
Qed.

Lemma identity_case_folded_witness :
  let g := run_ops (CDependencyGraph_new 25) [OpAddNode 97] in
  (tolower 66 = tolower 98 ->
     GetNodeIndex 66 = GetNodeIndex 98 /\
     HasNode g 66 = HasNode g 98 /\
     fst (AddNode g 66) = fst (AddNode g 98) /\
     fst (AddNode (snd (AddNode g 66)) 98) = false) /\
  (tolower 66 <> tolower 98 -> GetNodeIndex 66 <> GetNodeIndex 98).
Proof.
  apply (identity_case_folded 25 [OpAddNode 97] 66 98); reflexivity.
Defined.

(** *** Counting *)

Lemma successes_from g ops :
  graph_inv g ->
  GetNumNodes (run_ops g ops) = (GetNumNodes g + fst (successes g ops))%N /\
  sum_edges (m_vNodes (run_ops g ops))
    = (sum_edges (m_vNodes g) + snd (successes g ops))%N.
Proof.
  revert g. induction ops as [|op ops IH]; intros g Hg; simpl; [lia|].
  assert (Hg' : graph_inv (apply_op g op)).
  { destruct op; simpl; [apply graph_inv_AddNode | apply graph_inv_AddEdge]; exact Hg. }
  destruct (IH _ Hg') as [IH1 IH2]. fold (run_ops (apply_op g op) ops).
  rewrite IH1, IH2. clear IH IH1 IH2.
  assert (Hstep :
    GetNumNodes (apply_op g op)
      = (GetNumNodes g + match op with OpAddNode _ => if op_result g op then 1 else 0
                                   | _ => 0 end)%N /\
    sum_edges (m_vNodes (apply_op g op))
      = (sum_edges (m_vNodes g) + match op with OpAddEdge _ _ _ => if op_result g op then 1 else 0
                                             | _ => 0 end)%N).
  { destruct op as [x|a b w]; simpl.
    - destruct (AddNode_cases g x Hg) as [(Hn & Hi & Hx & E)|[_ E]]; rewrite E; simpl;
        [|lia].
      split; [unfold GetNumNodes; simpl; lia|].
      pose proof (valid_index_in_range g _ Hg Hi) as Hlt.
      pose proof (node_at_lookup g _ Hlt) as Hat.
      pose proof (sum_edges_insert (m_vNodes g) _
                    (SetNodeID (node_at g (GetNodeIndex x)) x) _ Hat) as Hs.
      unfold HasNode in Hn. cbv zeta in Hn. rewrite Hi in Hn.
      unfold NodeGetNumEdges in Hs. rewrite Hn in Hs.
      destruct (IsValid (SetNodeID _ x)); [|lia]. simpl in Hs.
      destruct (decide (size (m_setEdges (node_at g (GetNodeIndex x))) = O)) as [Hz|Hz];
        [lia|exfalso].
      apply Hz, map_size_empty_iff, map_eq. intros d. rewrite lookup_empty.
      destruct (m_setEdges (node_at g (GetNodeIndex x)) !! d) eqn:Hd; [|reflexivity].
      destruct (inv_edges g Hg _ _ d Hat ltac:(rewrite Hd; eauto)) as [_ Hbad].
      congruence.
    - destruct (AddEdge_cases g a b w Hg) as [(Ha & Hb & Hn & He & E)|[_ E]];
        rewrite E; simpl; [|lia].
      split; [unfold GetNumNodes; simpl; lia|].
      apply HasNode_true in Hn as [Hi Hv].
      pose proof (valid_index_in_range g _ Hg Hi) as Hlt.
      pose proof (node_at_lookup g _ Hlt) as Hat.
      pose proof (sum_edges_insert (m_vNodes g) _
         {| m_ID := m_ID (node_at g (GetNodeIndex a));
            m_setEdges := <[b:=w]> (m_setEdges (node_at g (GetNodeIndex a))) |} _ Hat) as Hs.
      unfold NodeGetNumEdges in Hs. unfold IsValid at 2 in Hs. simpl in Hs.
      fold (IsValid (node_at g (GetNodeIndex a))) in Hs. rewrite Hv in Hs.
      rewrite map_size_insert_None in Hs; [lia|].
      unfold HasEdge in He. now destruct (m_setEdges _ !! b). }
  destruct Hstep as [-> ->]. destruct op; simpl; lia.
Qed.

Lemma max_nodes_apply_op g op : m_nMaxNodes (apply_op g op) = m_nMaxNodes g.
Proof.
  destruct op as [x|a b w]; simpl.
  - unfold AddNode. destruct (IsValidNodeIndex g (GetNodeIndex x)); [|reflexivity].
    destruct (negb (IsValid (node_at g (GetNodeIndex x)))); reflexivity.
  - unfold AddEdge. destruct (IsValidNodeID a && IsValidNodeID b); [|reflexivity].
    destruct (IsValidNodeIndex g (GetNodeIndex a)); reflexivity.
Qed.

Lemma max_nodes_run_ops ops : forall g, m_nMaxNodes (run_ops g ops) = m_nMaxNodes g.
Proof.
  induction ops as [|op ops IH]; intros g; simpl; [reflexivity|].
  fold (run_ops (apply_op g op) ops). now rewrite IH, max_nodes_apply_op.
Qed.

Lemma count_valid_le_length l : (count_valid l <= length l)%nat.
Proof. induction l as [|n l IH]; simpl; [lia|]. destruct (IsValid n); lia. Qed.

(** X4.  On a graph built from the constructor, [GetNumNodes] is the number of
    [AddNode] calls that returned true and [GetNumEdges] the number of
    [AddEdge] calls that returned true; the node count stays within the
    capacity and within the 25 letters, and the capacity is the one given to
    the constructor. *)
Theorem counts_are_successes (nMaxNodes : N) (ops : list graph_op) :
  let g0 := CDependencyGraph_new nMaxNodes in
  let g := run_ops g0 ops in
  GetNumNodes g = fst (successes g0 ops) /\
  GetNumEdges g = snd (successes g0 ops) /\
  (GetNumNodes g <= m_nMaxNodes g)%N /\ (GetNumNodes g <= 25)%N /\
  m_nMaxNodes g = to_size_t nMaxNodes /\
  length (m_vNodes g) = N.to_nat (to_size_t nMaxNodes).
Proof.
  intros g0 g.
  assert (Hg0 : graph_inv g0) by apply graph_inv_new.
  assert (Hg : graph_inv g) by apply graph_inv_reachable.
  destruct (successes_from g0 ops Hg0) as [H1 H2]. fold g in H1, H2.
  assert (Hmax : m_nMaxNodes g = to_size_t nMaxNodes)
    by (unfold g; now rewrite max_nodes_run_ops).
  split; [rewrite H1; reflexivity|].
  split.
  { rewrite GetNumEdges_sum by assumption. rewrite H2. simpl.
    now rewrite sum_edges_replicate. }
  split.
  { unfold GetNumNodes. rewrite (inv_count g Hg).
    pose proof (count_valid_le_length (m_vNodes g)) as Hl.
    rewrite (inv_length g Hg) in Hl. lia. }
  split; [apply (num_nodes_bound g Hg)|].
  split; [exact Hmax|]. rewrite (inv_length g Hg), Hmax. reflexivity.
Qed.

Lemma HasNode_run_ops later : forall g x,
  graph_inv g -> HasNode g x = true -> HasNode (run_ops g later) x = true.
Proof.
  induction later as [|op later IH]; intros g x Hg Hx; [exact Hx|].
  simpl. fold (run_ops (apply_op g op) later).
  assert (Hg1 : graph_inv (apply_op g op)).
  { destruct op; simpl; [apply graph_inv_AddNode | apply graph_inv_AddEdge]; exact Hg. }
  apply IH; [exact Hg1|].
  apply HasNode_true in Hx as [Hi Hv]. apply HasNode_true. split.
  - unfold IsValidNodeIndex in *. now rewrite max_nodes_apply_op.
  - destruct op as [y|a b w]; simpl.
    + destruct (AddNode_cases g y Hg) as [(Hn & Hiy & Hy & E)|[_ E]]; rewrite E;
        [|exact Hv]. simpl.
      destruct (N.eq_dec (GetNodeIndex y) (GetNodeIndex x)) as [Heq|Hne].
      * unfold HasNode in Hn. cbv zeta in Hn. rewrite Hiy, Heq in Hn. congruence.
      * rewrite node_at_insert_ne by assumption. exact Hv.
    + destruct (AddEdge_cases g a b w Hg) as [(Ha & Hb & Hn & He & E)|[_ E]]; rewrite E;
        [|exact Hv]. simpl.
      destruct (N.eq_dec (GetNodeIndex a) (GetNodeIndex x)) as [Heq|Hne].
      * rewrite <- Heq. rewrite node_at_insert_eq by
          (eapply valid_index_in_range; eauto; apply HasNode_true in Hn; tauto).
        rewrite <- Heq in Hv. exact Hv.
      * rewrite node_at_insert_ne by assumption. exact Hv.
Qed.

(** X5.  Nothing is ever removed: after any further calls a node that was added is
    still there, an edge that was stored is still there with its weight, and
    neither count has gone down. *)
Theorem nothing_removed (nMaxNodes : N) (ops later : list graph_op) :
  let g := run_ops (CDependencyGraph_new nMaxNodes) ops in
  let g' := run_ops g later in
  (forall x, HasNode g x = true -> HasNode g' x = true) /\
  (forall x d w, HasNode g x = true ->
     EdgeWeight (node_at g (GetNodeIndex x)) d = Some w ->
     EdgeWeight (node_at g' (GetNodeIndex x)) d = Some w) /\
  (GetNumNodes g <= GetNumNodes g')%N /\
  (GetNumEdges g <= GetNumEdges g')%N.
Proof.
  intros g g'.
  assert (Hg : graph_inv g) by apply graph_inv_reachable.
  assert (Hg' : graph_inv g') by (apply graph_inv_run_ops; exact Hg).
  destruct (successes_from g later Hg) as [H1 H2]. fold g' in H1, H2.
  assert (Hnode : forall x, HasNode g x = true -> HasNode g' x = true)
    by (intros x; now apply HasNode_run_ops).
  split; [exact Hnode|]. split.
  - intros x d w Hx Hd. apply HasNode_true in Hx as [Hi Hv].
    destruct (run_ops_keeps later g _ d w Hg Hi Hv Hd) as (_ & _ & H). exact H.
  - rewrite !GetNumEdges_sum by assumption. lia.
Qed.

Lemma nothing_removed_witness :
  let g := run_ops (CDependencyGraph_new 25) [OpAddNode 97; OpAddNode 98; OpAddEdge 98 97 1] in
  let g' := run_ops g [OpAddEdge 98 97 5; OpAddNode 98; OpAddNode 99] in
  HasNode g' 98 = true /\
  EdgeWeight (node_at g' (GetNodeIndex 98)) 97 = Some 1.
Proof.
  pose proof (nothing_removed 25 [OpAddNode 97; OpAddNode 98; OpAddEdge 98 97 1]
                [OpAddEdge 98 97 5; OpAddNode 98; OpAddNode 99]) as (H1 & H2 & _).
  split; [apply H1 | apply H2]; reflexivity.
Defined.

(** X6.  Edges leave added nodes only and lead to identities of the alphabet: a
    slot that holds no node has no edge and counts none, and the destination
    of every stored edge passes [IsValidNodeID]. *)
Theorem edges_well_sourced (nMaxNodes : N) (ops : list graph_op) :
  let g := run_ops (CDependencyGraph_new nMaxNodes) ops in
  forall i n, m_vNodes g !! i = Some n ->
    (IsValid n = false ->
       NodeGetNumEdges n = 0%N /\ forall d, HasEdge n d = false) /\
    (forall d, HasEdge n d = true ->
       IsValid n = true /\ IsValidNodeID d = true /\
       IsValidNodeID (GetNodeID n) = true /\ GetNodeIndex (GetNodeID n) = N.of_nat i).
Proof.
  intros g i n Hi. assert (Hg : graph_inv g) by apply graph_inv_reachable.
  assert (Hedge : forall d, HasEdge n d = true -> IsValid n = true /\ IsValidNodeID d = true).
  { intros d Hd. unfold HasEdge in Hd.
    destruct (m_setEdges n !! d) eqn:E; [|discriminate].
    destruct (inv_edges g Hg i n d Hi ltac:(rewrite E; eauto)); auto. }
  split.
  - intros Hv. split; [unfold NodeGetNumEdges; now rewrite Hv|].
    intros d. destruct (HasEdge n d) eqn:Hd; [|reflexivity].
    destruct (Hedge d Hd). congruence.
  - intros d Hd. destruct (Hedge d Hd) as [Hv Hdv].
    destruct (inv_slot g Hg i n Hi Hv). auto.
Qed.

Lemma edges_well_sourced_witness :
  let g := run_ops (CDependencyGraph_new 25) [OpAddNode 98; OpAddEdge 98 97 1] in
  let n := node_at g 1 in
  IsValid n = true /\ IsValidNodeID 97 = true /\
  IsValidNodeID (GetNodeID n) = true /\ GetNodeIndex (GetNodeID n) = N.of_nat 1.
Proof.
  intros g n.
  assert (Hn : m_vNodes g !! 1%nat = Some n) by (vm_compute; reflexivity).
  apply (proj2 (edges_well_sourced 25 [OpAddNode 98; OpAddEdge 98 97 1] 1%nat n Hn) 97).
  vm_compute. reflexivity.
Defined.

(** X7.  The comparison operators of [CDirectedEdgeData] look at the destination
    only: exactly one of [<], [==], [>] holds between two edges, whatever
    their weights, and two edges are equivalent for the ordered set (neither
    is less than the other) exactly when their destinations are equal.  An
    insertion is refused exactly when the set stores an equivalent edge. *)
Theorem edge_order (e1 e2 : CDirectedEdgeData) (s : gmap Z Z) :
  (edge_lt e1 e2 = true /\ edge_eq e1 e2 = false /\ edge_gt e1 e2 = false \/
   edge_lt e1 e2 = false /\ edge_eq e1 e2 = true /\ edge_gt e1 e2 = false \/
   edge_lt e1 e2 = false /\ edge_eq e1 e2 = false /\ edge_gt e1 e2 = true) /\
  (edge_gt e1 e2 = edge_lt e2 e1) /\
  (negb (edge_lt e1 e2) && negb (edge_lt e2 e1) = edge_eq e1 e2) /\
  (edge_eq e1 e2 = true <-> m_idDestNode e1 = m_idDestNode e2) /\
  (snd (set_insert s e1) = false <->
     exists e, s !! m_idDestNode e = Some (m_iWeight e) /\
       negb (edge_lt e1 e) && negb (edge_lt e e1) = true).
Proof.
  unfold edge_lt, edge_eq, edge_gt, set_insert.
  split; [|split; [|split; [|split]]].
  - destruct (Z.ltb_spec (m_idDestNode e1) (m_idDestNode e2));
      destruct (Z.eqb_spec (m_idDestNode e1) (m_idDestNode e2));
      destruct (Z.gtb_spec (m_idDestNode e1) (m_idDestNode e2)); try lia; auto.
  - rewrite Z.gtb_ltb. reflexivity.
  - destruct (Z.ltb_spec (m_idDestNode e1) (m_idDestNode e2));
      destruct (Z.ltb_spec (m_idDestNode e2) (m_idDestNode e1));
      destruct (Z.eqb_spec (m_idDestNode e1) (m_idDestNode e2)); simpl; try lia; auto.
  - apply Z.eqb_eq.
  - simpl. destruct (s !! m_idDestNode e1) as [w|] eqn:E; simpl.
    + split; [|reflexivity]. intros _. exists (mkEdge (m_idDestNode e1) w). simpl.
      split; [exact E|]. rewrite Z.ltb_irrefl. reflexivity.
    + split; [discriminate|]. intros (e & He & Heq). exfalso.
      assert (m_idDestNode e1 = m_idDestNode e) as Hd.
      { destruct (Z.ltb_spec (m_idDestNode e1) (m_idDestNode e));
          destruct (Z.ltb_spec (m_idDestNode e) (m_idDestNode e1));
          simpl in Heq; try discriminate; lia. }
      rewrite Hd in E. congruence.
Qed.

End GraphExtras.

(** ** Further properties of the pipeline simulator *)

Module PipelineExtras.

Import Pipeline PipelineSpec PipelineFacts RunFacts PollFacts PipelineMore.

(** *** Queueing while the simulation runs *)

(** X8.  [InsertInstruction] appends at the tail and admission takes the head.
    So, as long as the queue is not empty or the list has no room, queueing a
    record before a call gives the same flag and the same simulator as
    queueing it after the call; and records queued into an empty queue are
    admitted in the order they were queued. *)
Theorem insert_then_cycle (s : CPipelineSim) (x : CInstructionData) :
  (m_queInstructions s <> [] \/
   (m_dwMaxPipelineDepth s < N.of_nat (length (m_lstInstructionPipeline s)))%N ->
   ProcessNextCycle (snd (InsertInstruction s x)) =
     match ProcessNextCycle s with
     | Some (b, s') => Some (b, snd (InsertInstruction s' x))
     | None => None
     end) /\
  (forall rest,
     m_queInstructions s = [] ->
     (N.of_nat (length (m_lstInstructionPipeline s)) <= m_dwMaxPipelineDepth s)%N ->
     admission (insert_all s (x :: rest))
       = (x :: m_lstInstructionPipeline s, rest, true)) /\
  fst (InsertInstruction s x) = (N.of_nat (length (m_queInstructions s)) + 1)%N.
Proof.
  split; [|split].
  - intros H. unfold ProcessNextCycle, admission. simpl.
    destruct (N.of_nat (length (m_lstInstructionPipeline s)) <=? m_dwMaxPipelineDepth s)%N
      eqn:E.
    + destruct H as [H|H]; [|apply N.leb_le in E; lia].
      destruct (m_queInstructions s) as [|y q]; [congruence|]. simpl.
      destruct (stage_loop _ _) as [visited v].
      destruct (back (rev visited)); reflexivity.
    + destruct (stage_loop _ _) as [visited v].
      destruct (back (rev visited)); reflexivity.
  - intros rest Hq Hroom. rewrite insert_all_queue. unfold admission. simpl.
    apply N.leb_le in Hroom. rewrite Hroom, Hq. reflexivity.
  - simpl. rewrite length_app. simpl. lia.
Qed.

Lemma insert_then_cycle_witness :
  let s := snd (InsertInstruction CPipelineSim_new (CInstructionData_new 97 false)) in
  let x := CInstructionData_new 98 true in
  ProcessNextCycle (snd (InsertInstruction s x)) =
    match ProcessNextCycle s with
    | Some (b, s') => Some (b, snd (InsertInstruction s' x))
    | None => None
    end.
Proof.
  intros s x. apply (proj1 (insert_then_cycle s x)). left. discriminate.
Defined.

(** *** The cycle counter *)

Lemma calls_cycle n : forall s bs s',
  calls n s = Some (bs, s') ->
  m_dwCycle s' = Nat.iter n dword_inc (m_dwCycle s) /\ length bs = n /\
  m_dwMaxPipelineDepth s' = m_dwMaxPipelineDepth s.
Proof.
  induction n as [|n IH]; intros s bs s' H; simpl in H.
  - injection H as <- <-. auto.
  - destruct (ProcessNextCycle s) as [[b s1]|] eqn:Hstep; [|discriminate].
    destruct (calls n s1) as [[bs' s2]|] eqn:Hc; [|discriminate].
    injection H as <- <-. destruct (IH _ _ _ Hc) as (H1 & H2 & H3).
    assert (Hs1 : m_dwCycle s1 = dword_inc (m_dwCycle s) /\
                  m_dwMaxPipelineDepth s1 = m_dwMaxPipelineDepth s).
    { destruct (ProcessNextCycle_cases s)
        as (lst & que & bRet & Ha & [Hn|(newer & x & older & -> & Hn & Hx)]).
      - rewrite (ProcessNextCycle_free _ _ _ _ Ha Hn) in Hstep.
        injection Hstep as _ <-. auto.
      - rewrite (ProcessNextCycle_stall _ _ _ _ _ _ _ Ha eq_refl Hn Hx) in Hstep.
        injection Hstep as _ <-. auto. }
    destruct Hs1 as [E1 E2]. rewrite H1, E1, H3, E2. simpl.
    rewrite iter_shift. auto.
Qed.

(** *** Program order *)

Lemma instruction_ids_app l1 l2 :
  instruction_ids (l1 ++ l2) = instruction_ids l1 ++ instruction_ids l2.
Proof.
  induction l1 as [|x l1 IH]; simpl; [reflexivity|].
  destruct (IsNOOP x); simpl; now rewrite IH.
Qed.

Lemma instruction_ids_advance l :
  instruction_ids (map advance l) = instruction_ids l.
Proof.
  induction l as [|x l IH]; simpl; [reflexivity|].
  unfold IsNOOP in *. simpl. now rewrite IH.
Qed.

Lemma instruction_ids_rev l :
  instruction_ids (rev l) = rev (instruction_ids l).
Proof.
  induction l as [|x l IH]; simpl; [reflexivity|].
  rewrite instruction_ids_app, IH. simpl.
  destruct (IsNOOP x); simpl; [now rewrite app_nil_r | reflexivity].
Qed.

(** The identities in flight after retirement, oldest first: those before
    it, or those before it without the oldest. *)
Lemma ids_retire l tail :
  instruction_ids (rev (retire l) ++ tail) = instruction_ids (rev l ++ tail) \/
  exists c, instruction_ids (rev l ++ tail)
            = c :: instruction_ids (rev (retire l) ++ tail).
Proof.
  destruct (retire_cases l) as [->|(l' & x & -> & ->)]; [left; reflexivity|].
  rewrite rev_unit. simpl. destruct (IsNOOP x); [left; reflexivity|].
  right. eexists. reflexivity.
Qed.

Lemma step_program_order s b s' :
  ProcessNextCycle s = Some (b, s') ->
  instruction_ids (program_order s') = instruction_ids (program_order s) \/
  exists c, instruction_ids (program_order s)
            = c :: instruction_ids (program_order s').
Proof.
  intros H. unfold program_order.
  destruct (ProcessNextCycle_cases s) as (lst & que & bRet & Ha & Hc).
  assert (Hadm : instruction_ids (rev lst ++ que)
                 = instruction_ids (rev (m_lstInstructionPipeline s) ++ m_queInstructions s)).
  { destruct (admission_cases _ _ _ _ Ha)
      as [(x & -> & -> & _)|[(-> & -> & -> & _)|(-> & -> & _)]]; simpl.
    - now rewrite <- app_assoc.
    - rewrite !app_nil_r, instruction_ids_app. simpl. now rewrite app_nil_r.
    - reflexivity. }
  rewrite <- Hadm.
  destruct Hc as [Hn|(newer & x & older & -> & Hn & Hx)].
  - rewrite (ProcessNextCycle_free _ _ _ _ Ha Hn) in H. injection H as _ <-. simpl.
    destruct (ids_retire (map advance lst) que) as [E|[c E]].
    + left. rewrite E, <- map_rev, !instruction_ids_app, instruction_ids_advance.
      reflexivity.
    + right. exists c. rewrite <- E, <- map_rev, !instruction_ids_app,
        instruction_ids_advance. reflexivity.
  - rewrite (ProcessNextCycle_stall _ _ _ _ _ _ _ Ha eq_refl Hn Hx) in H.
    injection H as _ <-. simpl.
    rewrite !rev_app_distr. simpl. rewrite <- !app_assoc. simpl.
    set (tail := SetDataDependent x false :: rev newer ++ que).
    assert (Htail : forall l, instruction_ids (l ++ x :: rev newer ++ que)
              = instruction_ids (l ++ CNoopInstruction_in PS_EX :: tail)).
    { intros l. rewrite !instruction_ids_app. reflexivity. }
    rewrite Htail.
    destruct (ids_retire (map advance older) (CNoopInstruction_in PS_EX :: tail))
      as [E|[c E]].
    + left. rewrite E, <- map_rev, !instruction_ids_app, instruction_ids_advance.
      reflexivity.
    + right. exists c. rewrite <- E, <- map_rev, !instruction_ids_app,
        instruction_ids_advance. reflexivity.
Qed.

(** X9.  The simulator is in-order.  Take the identities of the non-bubble
    records in program order (in flight, oldest first, then queued).  A call
    leaves that sequence as it is or removes its first element, and queueing
    appends to it: after any number of calls the sequence is what is left of
    the initial one once the oldest instructions have retired. *)
Theorem in_order (s : CPipelineSim) :
  (forall b s', ProcessNextCycle s = Some (b, s') ->
     instruction_ids (program_order s') = instruction_ids (program_order s) \/
     exists c, instruction_ids (program_order s)
               = c :: instruction_ids (program_order s')) /\
  (forall x, instruction_ids (program_order (snd (InsertInstruction s x)))
             = instruction_ids (program_order s) ++ instruction_ids [x]) /\
  (forall j bs sj, calls j s = Some (bs, sj) ->
     exists retired,
       instruction_ids (program_order s)
         = retired ++ instruction_ids (program_order sj) /\
       (length retired <= j)%nat).
Proof.
  split; [|split].
  - intros b s'. apply step_program_order.
  - intros x. unfold program_order. simpl.
    now rewrite app_assoc, instruction_ids_app.
  - intros j. revert s. induction j as [|j IH]; intros s bs sj H; simpl in H.
    + injection H as <- <-. exists []. split; [reflexivity | simpl; lia].
    + destruct (ProcessNextCycle s) as [[b s1]|] eqn:Hstep; [|discriminate].
      destruct (calls j s1) as [[bs' s2]|] eqn:Hc; [|discriminate].
      injection H as <- <-. destruct (IH _ _ _ Hc) as (retired & E & Hlen).
      destruct (step_program_order _ _ _ Hstep) as [E1|[c E1]].
      * exists retired. rewrite <- E1, E. split; [reflexivity | lia].
      * exists (c :: retired). rewrite E1, E. split; [reflexivity | simpl; lia].
Qed.

Lemma in_order_witness :
  let s := insert_all CPipelineSim_new
             [CInstructionData_new 97 false; CInstructionData_new 98 true] in
  exists retired,
    instruction_ids (program_order s)
      = retired ++ [98] /\ (length retired <= 6)%nat.
Proof.
  intros s.
  assert (H : exists sj, calls 6 s = Some ([true; true; true; true; true; true], sj) /\
                         instruction_ids (program_order sj) = [98]).
  { eexists. split; vm_compute; reflexivity. }
  destruct H as (sj & Hc & Hids).
  destruct (proj2 (proj2 (in_order s)) 6%nat _ sj Hc) as (retired & E & Hlen).
  exists retired. rewrite <- Hids. auto.
Defined.


(** *** Completions *)

Lemma completions_in_iter l : forall co,
  completions_in co l = Nat.iter (count_where completes l) dword_inc co.
Proof.
  induction l as [|x l IH]; intros co; simpl; [reflexivity|].
  rewrite IH. destruct (completes x); simpl; [now rewrite iter_shift | reflexivity].
Qed.

Lemma count_where_rev p l : count_where p (rev l) = count_where p l.
Proof.
  induction l as [|x l IH]; simpl; [reflexivity|].
  rewrite count_where_app, IH. simpl. lia.
Qed.

Lemma unfinished_count_app l1 l2 :
  unfinished_count (l1 ++ l2) = (unfinished_count l1 + unfinished_count l2)%nat.
Proof. induction l1 as [|x l1 IH]; simpl; [reflexivity | rewrite IH; lia]. Qed.

Lemma unfinished_count_rev l : unfinished_count (rev l) = unfinished_count l.
Proof.
  induction l as [|x l IH]; simpl; [reflexivity|].
  rewrite unfinished_count_app, IH. simpl. lia.
Qed.

Lemma unfinished_count_advance l :
  (unfinished_count (map advance l) + count_where completes l
   = unfinished_count l)%nat.
Proof.
  induction l as [|x l IH]; simpl; [reflexivity|].
  assert ((if is_unfinished (advance x) then 1 else 0) + (if completes x then 1 else 0)
          = if is_unfinished x then 1 else 0)%nat.
  { destruct x as [i ps f].
    unfold is_unfinished, completes, real, advance, is_completed, IsNOOP. simpl.
    destruct (i =? NOOP_INSTRUCTION), ps; reflexivity. }
  lia.
Qed.

Lemma unfinished_count_retire l : unfinished_count (retire l) = unfinished_count l.
Proof.
  destruct l as [|y l] using rev_ind; [reflexivity|].
  rewrite retire_snoc. destruct (is_completed y) eqn:Hy; [|reflexivity].
  rewrite unfinished_count_app. simpl. unfold is_unfinished. rewrite Hy.
  rewrite andb_false_r. lia.
Qed.

Lemma step_completions s b s' :
  ProcessNextCycle s = Some (b, s') ->
  exists c,
    unfinished s = (unfinished s' + c)%nat /\
    m_dwCompletedCtr s' = Nat.iter c dword_inc (m_dwCompletedCtr s).
Proof.
  intros H. unfold unfinished, program_order.
  destruct (ProcessNextCycle_cases s) as (lst & que & bRet & Ha & Hc).
  assert (Hadm : unfinished_count (rev lst ++ que)
     = unfinished_count (rev (m_lstInstructionPipeline s) ++ m_queInstructions s)).
  { destruct (admission_cases _ _ _ _ Ha)
      as [(x & -> & -> & _)|[(-> & -> & -> & _)|(-> & -> & _)]]; simpl.
    - now rewrite <- app_assoc.
    - rewrite !app_nil_r, unfinished_count_app. simpl. lia.
    - reflexivity. }
  rewrite <- Hadm. rewrite !unfinished_count_app, !unfinished_count_rev.
  destruct Hc as [Hn|(newer & x & older & -> & Hn & Hx)].
  - rewrite (ProcessNextCycle_free _ _ _ _ Ha Hn) in H. injection H as _ <-. simpl.
    exists (count_where completes lst). split.
    + rewrite unfinished_count_retire.
      pose proof (unfinished_count_advance lst). lia.
    + now rewrite completions_in_iter, count_where_rev.
  - rewrite (ProcessNextCycle_stall _ _ _ _ _ _ _ Ha eq_refl Hn Hx) in H.
    injection H as _ <-. simpl.
    exists (count_where completes older). split.
    + rewrite !unfinished_count_app. simpl.
      rewrite unfinished_count_retire.
      pose proof (unfinished_count_advance older).
      assert (is_unfinished (SetDataDependent x false) = is_unfinished x) as ->
        by reflexivity.
      clear Hadm Ha. destruct (is_unfinished x); lia.
    + now rewrite completions_in_iter, count_where_rev.
Qed.

Lemma iter_add {A} (f : A -> A) a b x :
  Nat.iter (a + b) f x = Nat.iter b f (Nat.iter a f x).
Proof.
  induction a as [|a IH]; simpl; [reflexivity|]. now rewrite IH, iter_shift.
Qed.

Lemma calls_completions j : forall s bs sj,
  calls j s = Some (bs, sj) ->
  exists c,
    unfinished s = (unfinished sj + c)%nat /\
    m_dwCompletedCtr sj = Nat.iter c dword_inc (m_dwCompletedCtr s).
Proof.
  induction j as [|j IH]; intros s bs sj H; simpl in H.
  - injection H as <- <-. exists O. split; [lia | reflexivity].
  - destruct (ProcessNextCycle s) as [[b s1]|] eqn:Hstep; [|discriminate].
    destruct (calls j s1) as [[bs' s2]|] eqn:Hc; [|discriminate].
    injection H as <- <-.
    destruct (step_completions _ _ _ Hstep) as (c1 & E1 & F1).
    destruct (IH _ _ _ Hc) as (c2 & E2 & F2).
    exists (c1 + c2)%nat. split; [lia|]. now rewrite F2, F1, iter_add.
Qed.

(** X10.  The completion counter counts instructions, each once, and never a
    bubble: after any number of calls on a new simulator into which [instrs]
    were queued, it holds (as a 32-bit counter) the number of non-bubble
    records queued that are no longer unfinished. *)
Theorem completions_counted (instrs : list CInstructionData) :
  forall j bs sj,
    calls j (insert_all CPipelineSim_new instrs) = Some (bs, sj) ->
    exists c,
      unfinished_count instrs = (unfinished sj + c)%nat /\
      GetCompletionCount sj = (N.of_nat c mod DWORD_MODULUS)%N.
Proof.
  intros j bs sj H.
  destruct (calls_completions _ _ _ _ H) as (c & E & F).
  exists c. rewrite insert_all_queue in E, F. simpl in E, F. split.
  - exact E.
  - unfold GetCompletionCount. rewrite F. apply iter_dword_inc.
Qed.

Lemma completions_counted_witness :
  exists c,
    unfinished_count [CInstructionData_new 97 false; CNoopInstruction;
                      CInstructionData_new 98 true]
      = (0 + c)%nat /\
    (N.of_nat c mod DWORD_MODULUS)%N = 2%N.
Proof.
  pose (n := fun st => mkInstr NOOP_INSTRUCTION st false).
  pose (sj := mkSim 9 1 2 4 [n PS_IF; n PS_ID; n PS_EX; n PS_WB] []).
  assert (Hc : calls 9 (insert_all CPipelineSim_new
                          [CInstructionData_new 97 false; CNoopInstruction;
                           CInstructionData_new 98 true])
               = Some ([true; true; true; true; false; true; true; false; false], sj))
    by (vm_compute; reflexivity).
  destruct (completions_counted _ _ _ _ Hc) as (c & E & F).
  exists c. split; [exact E | rewrite <- F; reflexivity].
Defined.

(** *** A whole run *)

(** With nothing left to do, the call returns false and leaves no
    instruction unfinished. *)
Lemma final_step s :
  sim_inv s -> calls_left s = O ->
  exists s', ProcessNextCycle s = Some (false, s') /\ unfinished s' = O.
Proof.
  destruct s as [cyc st co depth lst que].
  intros [Hd Hs Hq Hb Hf Hr] Hl. simpl in *. subst depth.
  destruct que as [|x que]; [|unfold calls_left in Hl; simpl in Hl; lia].
  inversion Hs; subst; clear Hs; all_cases.
  all: unfold ProcessNextCycle, admission; crunch;
       eexists; split; reflexivity.
Qed.

Lemma unfinished_step s b s' :
  ProcessNextCycle s = Some (b, s') -> (unfinished s' <= unfinished s)%nat.
Proof. intros H. destruct (step_completions _ _ _ H) as (c & E & _). lia. Qed.

(** Once a call of the run has returned false, every later one does. *)
Lemma idle_calls m : forall s,
  sim_inv s -> calls_left s = O ->
  exists s',
    calls (S m) s = Some (replicate (S m) false, s') /\
    sim_inv s' /\ unfinished s' = O /\
    (flags_left s = O -> m_dwStallCtr s' = m_dwStallCtr s).
Proof.
  induction m as [|m IH]; intros s Hs Hl;
    destruct (step_inv s Hs) as (b & s1 & Hstep & Hs1 & _ & Hl1 & Hst);
    destruct (final_step s Hs Hl) as (s1' & Hstep' & Hu);
    rewrite Hstep in Hstep'; injection Hstep' as -> <-.
  - exists s1. simpl. rewrite Hstep.
    split; [reflexivity|]. split; [exact Hs1|]. split; [exact Hu|].
    intros H0. destruct Hst as [[E _]|[_ E]]; [exact E | lia].
  - destruct (IH s1 Hs1 ltac:(lia)) as (s' & Hc & Hs' & Hu' & Hst').
    exists s'. rewrite calls_S, Hstep, Hc.
    split; [reflexivity|]. split; [exact Hs'|]. split; [exact Hu'|].
    intros H0. destruct Hst as [[E1 E2]|[_ E]]; [|lia].
    rewrite Hst' by lia. exact E1.
Qed.

(** The calls that return true. *)
Lemma busy_calls n : forall s,
  sim_inv s -> calls_left s = n ->
  exists sn,
    calls n s = Some (replicate n true, sn) /\
    sim_inv sn /\ calls_left sn = O /\
    m_dwStallCtr sn = Nat.iter (flags_left s) dword_inc (m_dwStallCtr s).
Proof.
  induction n as [|n IH]; intros s Hs Hn.
  - exists s. pose proof (calls_left_flags s).
    replace (flags_left s) with O by lia. auto.
  - destruct (step_inv s Hs) as (b & s1 & Hstep & Hs1 & Hb & Hl & Hst).
    destruct b; [|lia].
    destruct (IH s1 Hs1 ltac:(lia)) as (sn & Hc & Hsn & Hln & Hstn).
    exists sn. rewrite calls_S, Hstep, Hc.
    split; [reflexivity|]. split; [exact Hsn|]. split; [exact Hln|].
    rewrite Hstn. destruct Hst as [[E1 E2]|[E1 E2]].
    + now rewrite E1, E2.
    + rewrite E1, <- E2. simpl. now rewrite iter_shift.
Qed.

Lemma unfinished_fresh l :
  forallb fresh_instr l = true -> unfinished_count l = length l.
Proof.
  induction l as [|x l IH]; simpl; [reflexivity|].
  intros H. apply andb_prop in H as [Hx H]. rewrite (IH H).
  destruct (fresh_instr_inv x Hx) as (c & f & -> & Ec).
  unfold is_unfinished, IsNOOP, NOOP_INSTRUCTION. simpl. now rewrite Ec.
Qed.

Lemma only_bubbles l :
  shape l -> unfinished_count (rev l) = O -> forallb IsNOOP l = true.
Proof.
  rewrite unfinished_count_rev.
  unfold IsNOOP, NOOP_INSTRUCTION.
  intros Hs; inversion Hs; subst; clear Hs; simpl;
    unfold is_unfinished, IsNOOP, NOOP_INSTRUCTION; simpl;
    repeat match goal with
           | |- context [?i =? 45] => destruct (i =? 45)
           end; simpl; try reflexivity; intros; lia.
Qed.

(** The whole run from a new simulator, in the terms of the invariant. *)
Lemma whole_run (instrs : list CInstructionData) (m : nat) :
  forallb fresh_instr instrs = true ->
  flag_ok false instrs = true ->
  let s0 := insert_all CPipelineSim_new instrs in
  exists s',
    calls (calls_left s0 + S m) s0
      = Some (replicate (calls_left s0) true ++ replicate (S m) false, s') /\
    sim_inv s' /\ m_queInstructions s' = [] /\ unfinished s' = O /\
    m_dwCompletedCtr s' = (N.of_nat (length instrs) mod DWORD_MODULUS)%N /\
    m_dwStallCtr s' = (N.of_nat (flagged_count instrs) mod DWORD_MODULUS)%N /\
    m_dwCycle s' = (N.of_nat (calls_left s0 + S m) mod DWORD_MODULUS)%N.
Proof.
  intros Hq Hf s0.
  pose proof (sim_inv_start instrs Hq Hf) as Hs0. fold s0 in Hs0.
  destruct (busy_calls _ s0 Hs0 eq_refl) as (sn & Hc1 & Hsn & Hln & Hstn).
  destruct (idle_calls m sn Hsn Hln) as (s' & Hc2 & Hs' & Hu & Hst').
  assert (Hc : calls (calls_left s0 + S m) s0
               = Some (replicate (calls_left s0) true ++ replicate (S m) false, s')).
  { rewrite calls_app, Hc1, Hc2. reflexivity. }
  exists s'. split; [exact Hc|]. split; [exact Hs'|].
  split; [|split; [exact Hu|split; [|split]]].
  - destruct (calls_monotone _ _ _ _ Hc2) as [[taken Ht] _].
    unfold calls_left in Hln.
    destruct (m_queInstructions sn); [|simpl in Hln; lia].
    symmetry in Ht. now apply app_eq_nil in Ht as [_ ->].
  - destruct (calls_completions _ _ _ _ Hc) as (c & E & F).
    rewrite F. rewrite Hu in E. unfold s0 in E |- *.
    rewrite insert_all_queue in E |- *. unfold unfinished, program_order in E.
    simpl in E |- *. rewrite unfinished_fresh in E by assumption.
    replace c with (length instrs) by lia. apply iter_dword_inc.
  - pose proof (calls_left_flags sn).
    rewrite Hst' by lia. rewrite Hstn. unfold s0.
    rewrite insert_all_queue. unfold flags_left. simpl.
    change (flagged_count []) with O. simpl. apply iter_dword_inc.
  - destruct (calls_cycle _ _ _ _ Hc) as (E & _ & _).
    rewrite E. unfold s0 at 2. rewrite insert_all_queue. simpl.
    apply iter_dword_inc.
Qed.

(** X11.  The whole run of a simulator fed as the driver feeds it: records not
    fetched yet, none a bubble, a flag only on a record that follows another.
    With [k >= 1] records of which [d] are flagged, the calls return true
    exactly [k + 3 + d] times and false ever after, so the first false the
    driver stops at hides nothing.  From the first false on, the queue is
    empty, the list holds bubbles only, and the counters read: completions
    [k], stalls [d], cycles the number of calls made (each as a 32-bit
    counter). *)
Theorem run_totals (instrs : list CInstructionData) (m : nat) :
  forallb fresh_instr instrs = true ->
  flag_ok false instrs = true ->
  let n := match instrs with
           | [] => O
           | _ :: _ => (length instrs + 3 + flagged_count instrs)%nat
           end in
  exists s',
    calls (n + S m) (insert_all CPipelineSim_new instrs)
      = Some (replicate n true ++ replicate (S m) false, s') /\
    m_queInstructions s' = [] /\
    forallb IsNOOP (m_lstInstructionPipeline s') = true /\
    GetCompletionCount s' = (N.of_nat (length instrs) mod DWORD_MODULUS)%N /\
    GetStallCount s' = (N.of_nat (flagged_count instrs) mod DWORD_MODULUS)%N /\
    GetCycle s' = (N.of_nat (n + S m) mod DWORD_MODULUS)%N.
Proof.
  intros Hq Hf n.
  destruct (whole_run instrs m Hq Hf) as (s' & Hc & Hs' & Hque & Hu & H1 & H2 & H3).
  rewrite calls_left_start in Hc, H3. fold n in Hc, H3.
  exists s'. split; [exact Hc|]. split; [exact Hque|].
  split; [|split; [exact H1 | split; [exact H2 | exact H3]]].
  apply only_bubbles; [apply Hs'|].
  unfold unfinished, program_order in Hu. rewrite Hque, app_nil_r in Hu. exact Hu.
Qed.

Lemma run_totals_witness :
  exists s',
    calls (7 + 3) (insert_all CPipelineSim_new
                     [CInstructionData_new 97 false; CInstructionData_new 98 true;
                      CInstructionData_new 99 false])
      = Some (replicate 7 true ++ replicate 3 false, s') /\
    m_queInstructions s' = [] /\
    forallb IsNOOP (m_lstInstructionPipeline s') = true /\
    GetCompletionCount s' = (N.of_nat 3 mod DWORD_MODULUS)%N /\
    GetStallCount s' = (N.of_nat 1 mod DWORD_MODULUS)%N /\
    GetCycle s' = (N.of_nat (7 + 3) mod DWORD_MODULUS)%N.
Proof.
  apply (run_totals [CInstructionData_new 97 false; CInstructionData_new 98 true;
                     CInstructionData_new 99 false] 2); reflexivity.
Defined.

(** *** Snapshots *)

(** X12.  What [OutputCurrentInstructionCycle] writes between two calls of such a
    run: the symbols of the records in Fetch, Decode, Execute and WriteBack, in
    that order from the left, each followed by a blank, then the newline.  So a
    line shows at most four symbols and no stage twice; the list itself holds
    at most five records, the fifth one, after a stall, not fetched yet and not
    shown. *)
Theorem snapshot_of_run (instrs : list CInstructionData) (j : nat)
    (bs : list bool) (sj : CPipelineSim) :
  forallb fresh_instr instrs = true ->
  flag_ok false instrs = true ->
  calls j (insert_all CPipelineSim_new instrs) = Some (bs, sj) ->
  exists hidden shown,
    m_lstInstructionPipeline sj = hidden ++ shown /\
    (hidden = [] \/ exists x, hidden = [x] /\ GetState x = PS_INVALID) /\
    map GetState shown = take (length shown) [PS_IF; PS_ID; PS_EX; PS_WB] /\
    OutputCurrentInstructionCycle sj
      = flat_map (fun x => [GetInstruction x; 32]) shown ++ [10] /\
    (length shown <= 4)%nat /\
    (length (OutputCurrentInstructionCycle sj) <= 9)%nat.
Proof.
  intros Hq Hf Hc.
  destruct (calls_inv j _ (sim_inv_start instrs Hq Hf)) as (bs' & sj' & Hc' & Hs & _).
  rewrite Hc in Hc'. injection Hc' as <- <-.
  unfold OutputCurrentInstructionCycle.
  destruct Hs as [_ Hs _ _ _ _]. clear Hc.
  destruct sj as [cyc st co depth lst que]. simpl in *.
  inversion Hs as [ | | | | |i0 f0 i1 f1 i2 i3 i4]; subst; clear Hs.
  1-5: eexists [], _; split; [reflexivity|]; split; [now left|];
       repeat split; simpl; lia.
  eexists [mkInstr i0 PS_INVALID f0], _. split; [reflexivity|].
  split; [right; eauto|]. repeat split; simpl; lia.
Qed.

Lemma snapshot_of_run_witness :
  exists hidden shown,
    [mkInstr 99 PS_INVALID false; mkInstr 98 PS_IF false; mkInstr 97 PS_ID false;
     mkInstr 45 PS_EX false; mkInstr 96 PS_WB false] = hidden ++ shown /\
    (hidden = [] \/ exists x, hidden = [x] /\ GetState x = PS_INVALID) /\
    map GetState shown = take (length shown) [PS_IF; PS_ID; PS_EX; PS_WB] /\
    [98; 32; 97; 32; 45; 32; 96; 32; 10]
      = flat_map (fun x => [GetInstruction x; 32]) shown ++ [10] /\
    (length shown <= 4)%nat /\
    (length [98; 32; 97; 32; 45; 32; 96; 32; 10] <= 9)%nat.
Proof.
  exact (snapshot_of_run
           [CInstructionData_new 96 false; CInstructionData_new 97 true;
            CInstructionData_new 98 false; CInstructionData_new 99 false]
           4 [true; true; true; true]
           (mkSim 4 1 0 4
              [mkInstr 99 PS_INVALID false; mkInstr 98 PS_IF false;
               mkInstr 97 PS_ID false; mkInstr 45 PS_EX false;
               mkInstr 96 PS_WB false] [])
           eq_refl eq_refl eq_refl).
Defined.

(** *** The pipeline diagram *)

Lemma drop_stream ids j :
  match drop j ids with
  | [] => stream ids j = NOOP_INSTRUCTION /\ drop (S j) ids = []
  | c :: q => stream ids j = c /\ drop (S j) ids = q
  end.
Proof.
  unfold stream. revert j. induction ids as [|c ids IH]; intros j.
  - rewrite !drop_nil. now destruct j.
  - destruct j as [|j]; simpl.
    + rewrite drop_0. auto.
    + apply IH.
Qed.

Lemma diagram_row_full ids j :
  (4 <= j)%nat ->
  diagram_row ids j =
    [mkInstr (stream ids (j - 1)) PS_IF false;
     mkInstr (stream ids (j - 2)) PS_ID false;
     mkInstr (stream ids (j - 3)) PS_EX false;
     mkInstr (stream ids (j - 4)) PS_WB false].
Proof. intros H. unfold diagram_row. apply take_ge. simpl. lia. Qed.

Lemma diagram_shift ids j :
  retire (map advance (mkInstr (stream ids j) PS_INVALID false :: diagram_row ids j))
  = diagram_row ids (S j) /\
  no_stall (mkInstr (stream ids j) PS_INVALID false :: diagram_row ids j) = true.
Proof.
  destruct (le_lt_dec 4 j) as [Hj|Hj].
  - rewrite (diagram_row_full ids j), (diagram_row_full ids (S j)) by lia.
    replace (S j - 1)%nat with j by lia.
    replace (S j - 2)%nat with (j - 1)%nat by lia.
    replace (S j - 3)%nat with (j - 2)%nat by lia.
    replace (S j - 4)%nat with (j - 3)%nat by lia.
    split; reflexivity.
  - destruct j as [|[|[|[|j]]]]; try lia; split; reflexivity.
Qed.

Lemma diagram_step ids j cyc co :
  exists b co',
    ProcessNextCycle
      (mkSim cyc 0 co CONCURRENT_INSTRUCTION_LIMIT (diagram_row ids j)
             (map (fun c => CInstructionData_new c false) (drop j ids)))
    = Some (b, mkSim (dword_inc cyc) 0 co' CONCURRENT_INSTRUCTION_LIMIT
                     (diagram_row ids (S j))
                     (map (fun c => CInstructionData_new c false) (drop (S j) ids))).
Proof.
  pose proof (drop_stream ids j) as Hd.
  assert (Ha : exists bRet,
    admission (mkSim cyc 0 co CONCURRENT_INSTRUCTION_LIMIT (diagram_row ids j)
                 (map (fun c => CInstructionData_new c false) (drop j ids)))
    = (mkInstr (stream ids j) PS_INVALID false :: diagram_row ids j,
       map (fun c => CInstructionData_new c false) (drop (S j) ids), bRet)).
  { unfold admission. simpl.
    assert (Hlen : (N.of_nat (length (diagram_row ids j)) <=? CONCURRENT_INSTRUCTION_LIMIT)%N
                   = true).
    { apply N.leb_le. unfold diagram_row, CONCURRENT_INSTRUCTION_LIMIT.
      rewrite length_take. simpl. lia. }
    rewrite Hlen. destruct (drop j ids) as [|c q]; destruct Hd as [-> ->]; simpl; eauto. }
  destruct Ha as [bRet Ha]. destruct (diagram_shift ids j) as [HL Hn].
  rewrite (ProcessNextCycle_free _ _ _ _ Ha Hn), HL. simpl. eauto.
Qed.

Lemma diagram_calls ids j : forall i cyc co,
  exists bs co',
    calls j (mkSim cyc 0 co CONCURRENT_INSTRUCTION_LIMIT (diagram_row ids i)
               (map (fun c => CInstructionData_new c false) (drop i ids)))
    = Some (bs, mkSim (Nat.iter j dword_inc cyc) 0 co' CONCURRENT_INSTRUCTION_LIMIT
                      (diagram_row ids (j + i))
                      (map (fun c => CInstructionData_new c false) (drop (j + i) ids))).
Proof.
  induction j as [|j IH]; intros i cyc co.
  - simpl. eauto.
  - destruct (diagram_step ids i cyc co) as (b & co1 & Hstep).
    destruct (IH (S i) (dword_inc cyc) co1) as (bs & co' & Hc).
    exists (b :: bs), co'. rewrite calls_S, Hstep, Hc.
    replace (j + S i)%nat with (S j + i)%nat by lia.
    simpl. now rewrite iter_shift.
Qed.

(** X13.  The pipeline diagram.  When no queued record is flagged, no call
    stalls, and the simulator is a shift register: after [j] calls the list
    holds, newest first, the records fetched at calls [j], [j - 1], [j - 2] and
    [j - 3] in Fetch, Decode, Execute and WriteBack (as many of them as calls
    were made), bubbles standing in once the queue is exhausted.  The snapshot
    shows their symbols in that order, the queue has lost its first [j]
    records, and the stall counter is 0. *)
Theorem independent_diagram (ids : list Z) (j : nat) :
  exists bs sj,
    calls j (insert_all CPipelineSim_new (map (fun c => CInstructionData_new c false) ids))
      = Some (bs, sj) /\
    m_lstInstructionPipeline sj = diagram_row ids j /\
    m_queInstructions sj = map (fun c => CInstructionData_new c false) (drop j ids) /\
    OutputCurrentInstructionCycle sj
      = flat_map (fun k => [stream ids (j - k); 32]) (seq 1 (Nat.min j 4)) ++ [10] /\
    GetStallCount sj = 0%N /\
    GetCycle sj = (N.of_nat j mod DWORD_MODULUS)%N.
Proof.
  destruct (diagram_calls ids j 0 0%N 0%N) as (bs & co' & Hc).
  rewrite Nat.add_0_r in Hc.
  eexists _, _. split.
  - rewrite insert_all_queue. simpl. exact Hc.
  - simpl. split; [reflexivity|]. split; [reflexivity|].
    split; [|split; [reflexivity | apply iter_dword_inc]].
    unfold OutputCurrentInstructionCycle. simpl.
    destruct (le_lt_dec 4 j) as [Hj|Hj].
    + rewrite diagram_row_full by lia. rewrite Nat.min_r by lia. reflexivity.
    + destruct j as [|[|[|[|j]]]]; try lia; reflexivity.
Qed.

End PipelineExtras.

(** ** Further properties of the driver *)

Module DriverExtras.

Import Graph GraphSpec GraphFacts GraphMore Pipeline PipelineSpec PipelineFacts
       RunFacts PollFacts PipelineMore Driver DriverSpec DriverFacts
       GraphExtras PipelineExtras.

(** *** The order in which instructions are queued *)

(** A valid node sits in the slot of its letter. *)
Lemma slot_letter g i n :
  graph_inv g -> m_vNodes g !! i = Some n -> IsValid n = true ->
  tolower (m_ID n) = 97 + Z.of_nat i.
Proof.
  intros Hg Hi Hv. destruct (inv_slot g Hg i n Hi Hv) as [Hid Hidx].
  destruct (index_of_valid _ Hid) as [E _]. rewrite E in Hidx.
  apply valid_id_bounds in Hid. unfold tolower in *.
  destruct ((65 <=? m_ID n) && (m_ID n <=? 90)) eqn:Ec; lia.
Qed.

Lemma index_of_letter x i :
  IsValidNodeID x = true -> tolower x = 97 + Z.of_nat i ->
  GetNodeIndex x = N.of_nat i.
Proof.
  intros Hx E. destruct (index_of_valid _ Hx) as [-> _]. rewrite E. lia.
Qed.

Lemma letter_of_index x :
  IsValidNodeID x = true -> tolower x = 97 + Z.of_N (GetNodeIndex x).
Proof.
  intros Hx. destruct (index_of_valid _ Hx) as [-> _].
  apply valid_id_bounds in Hx. unfold tolower.
  destruct ((65 <=? x) && (x <=? 90)) eqn:Ec; lia.
Qed.

Lemma instructions_sorted l : forall k,
  (forall i n, l !! i = Some n -> IsValid n = true ->
     tolower (m_ID n) = k + Z.of_nat i) ->
  StronglySorted Z.lt (map (fun r => tolower (GetInstruction r)) (instructions_of l)) /\
  Forall (fun c => k <= c) (map (fun r => tolower (GetInstruction r)) (instructions_of l)).
Proof.
  induction l as [|it l IH]; intros k H; simpl.
  - split; constructor.
  - destruct (IH (k + 1)) as [IH1 IH2].
    { intros i n Hi Hv. rewrite (H (S i) n Hi Hv). lia. }
    destruct (IsValid it) eqn:Hv; simpl.
    + pose proof (H O it eq_refl Hv) as E. unfold GetNodeID. rewrite E.
      split.
      * constructor; [exact IH1|]. eapply Forall_impl; [exact IH2|].
        simpl. intros c Hc. lia.
      * constructor; [lia|]. eapply Forall_impl; [exact IH2|].
        simpl. intros c Hc. lia.
    + split; [exact IH1|]. eapply Forall_impl; [exact IH2|].
      simpl. intros c Hc. lia.
Qed.

Lemma instructions_elem l r :
  r ∈ instructions_of l <->
  exists i n, l !! i = Some n /\ IsValid n = true /\
    r = CInstructionData_new (GetNodeID n) (depends_on_previous n).
Proof.
  induction l as [|it l IH]; simpl.
  - split; [intros H; inversion H | intros (i & n & H & _); discriminate].
  - destruct (IsValid it) eqn:Hv.
    + rewrite elem_of_cons, IH. split.
      * intros [->|(i & n & Hi & Hn & ->)]; [exists O, it | exists (S i), n]; auto.
      * intros ([|i] & n & Hi & Hn & ->); simpl in Hi.
        -- injection Hi as <-. now left.
        -- right. eauto.
    + rewrite IH. split.
      * intros (i & n & Hi & Hn & ->). exists (S i), n. auto.
      * intros ([|i] & n & Hi & Hn & ->); simpl in Hi.
        -- injection Hi as <-. congruence.
        -- eauto.
Qed.

Lemma queue_of_graph dag :
  queue_instructions CPipelineSim_new dag
  = mkSim 0 0 0 CONCURRENT_INSTRUCTION_LIMIT [] (instructions_of (m_vNodes dag)).
Proof.
  unfold queue_instructions. rewrite queue_instructions_insert_all, insert_all_queue.
  reflexivity.
Qed.

(** X14.  The driver queues the nodes in the order of the vector, that is in
    alphabetical order of their letters, whatever the order in which they were
    added: the queue holds one record per node, the letters strictly
    ascending, each record new (not fetched, not a bubble) and flagged exactly
    when its node has an edge to the identity one below its own; nothing is in
    flight and the counters are zero. *)
Theorem queue_order (nMaxNodes : N) (ops : list graph_op) :
  let dag := run_ops (CDependencyGraph_new nMaxNodes) ops in
  let sim := queue_instructions CPipelineSim_new dag in
  let que := m_queInstructions sim in
  length que = N.to_nat (GetNumNodes dag) /\
  StronglySorted Z.lt (map (fun r => tolower (GetInstruction r)) que) /\
  (forall x, IsValidNodeID x = true ->
     (HasNode dag x = true <->
      exists r, r ∈ que /\ tolower (GetInstruction r) = tolower x)) /\
  (forall r, r ∈ que ->
     GetState r = PS_INVALID /\ IsNOOP r = false /\
     IsDataDependent r
       = HasEdge (node_at dag (GetNodeIndex (GetInstruction r)))
                 (GetInstruction r - 1)) /\
  m_lstInstructionPipeline sim = [] /\
  GetCycle sim = 0%N /\ GetStallCount sim = 0%N /\ GetCompletionCount sim = 0%N.
Proof.
  intros dag sim que.
  assert (Hg : graph_inv dag) by apply graph_inv_reachable.
  assert (Hque : que = instructions_of (m_vNodes dag)).
  { unfold que, sim. now rewrite queue_of_graph. }
  split; [|split; [|split; [|split]]].
  - rewrite Hque, instructions_of_length. unfold GetNumNodes.
    rewrite (inv_count dag Hg). lia.
  - rewrite Hque. apply (instructions_sorted (m_vNodes dag) 97).
    intros i n. apply (slot_letter dag i n Hg).
  - intros x Hx. rewrite Hque. split.
    + intros H. apply HasNode_true in H as [Hi Hv].
      pose proof (valid_index_in_range dag _ Hg Hi) as Hlt.
      pose proof (node_at_lookup dag _ Hlt) as Hat.
      eexists. split; [apply instructions_elem; eauto|].
      simpl. unfold GetNodeID. rewrite (slot_letter dag _ _ Hg Hat Hv).
      rewrite (letter_of_index x Hx). lia.
    + intros (r & Hr & Hkey). apply instructions_elem in Hr as (i & n & Hi & Hv & ->).
      simpl in Hkey. unfold GetNodeID in Hkey.
      rewrite (slot_letter dag _ _ Hg Hi Hv) in Hkey.
      pose proof (index_of_letter x i Hx (eq_sym Hkey)) as Hidx.
      apply HasNode_true. rewrite Hidx.
      pose proof (lookup_lt_Some _ _ _ Hi) as Hlt. rewrite (inv_length dag Hg) in Hlt.
      split.
      * unfold IsValidNodeIndex. apply N.ltb_lt. lia.
      * unfold node_at. rewrite Nat2N.id, Hi. exact Hv.
  - intros r Hr. rewrite Hque in Hr.
    apply instructions_elem in Hr as (i & n & Hi & Hv & ->). simpl.
    split; [reflexivity|].
    destruct (inv_slot dag Hg i n Hi Hv) as [Hid Hidx].
    split.
    + unfold IsNOOP, NOOP_INSTRUCTION, GetNodeID. simpl.
      apply valid_id_bounds in Hid. apply Z.eqb_neq. lia.
    + unfold GetNodeID, GetInstruction. simpl. rewrite Hidx.
      unfold node_at. rewrite Nat2N.id, Hi. reflexivity.
  - unfold sim. rewrite queue_of_graph. auto.
Qed.

Lemma queue_order_witness :
  let dag := run_ops (CDependencyGraph_new 25)
               [OpAddNode 99; OpAddNode 65; OpAddNode 98; OpAddEdge 98 97 1] in
  HasNode dag 97 = true <->
  exists r, r ∈ m_queInstructions (queue_instructions CPipelineSim_new dag) /\
            tolower (GetInstruction r) = tolower 97.
Proof.
  intros dag.
  apply (proj1 (proj2 (proj2 (queue_order 25
           [OpAddNode 99; OpAddNode 65; OpAddNode 98; OpAddEdge 98 97 1]))) 97).
  reflexivity.
Defined.

(** *** The cycle estimates *)

(** X15.  The three estimates the driver prints, for a graph with [N] nodes.  There
    are at most 25 nodes, so no estimate leaves the range of [int]; the number
    of stalls lies between 0 and [N]; complete overlap never takes longer than
    partial overlap, nor, with at least one node, than sequential execution.
    When every edge leads to an added node and there is a node, the first
    instruction needs no stall: at most [N - 1] stalls, at most [2N + 2] cycles
    with partial overlap, and never more than sequential execution takes. *)
Theorem cycle_estimates (nMaxNodes : N) (ops : list graph_op) :
  let dag := run_ops (CDependencyGraph_new nMaxNodes) ops in
  let n := Z.of_N (GetNumNodes dag) in
  0 <= n <= 25 /\
  0 <= CalculateNumberOfStallsRequired dag <= n /\
  CalculateSequentialExecutionCycles dag = 4 * n /\
  CalculateSequentialExecutionCycles dag <= 100 /\
  CalculateCompleteOverlappedExecutionCycles dag
    <= CalculatePartialOverlappedExecutionCycles dag <= 53 /\
  (1 <= n ->
     CalculateCompleteOverlappedExecutionCycles dag
       <= CalculateSequentialExecutionCycles dag) /\
  (edges_closed dag = true -> 1 <= n ->
     CalculateNumberOfStallsRequired dag <= n - 1 /\
     CalculatePartialOverlappedExecutionCycles dag <= 2 * n + 2 /\
     CalculatePartialOverlappedExecutionCycles dag
       <= CalculateSequentialExecutionCycles dag).
Proof.
  intros dag n.
  assert (Hg : graph_inv dag) by apply graph_inv_reachable.
  pose proof (num_nodes_bound dag Hg) as Hnum. fold (GetNumNodes dag) in Hnum.
  set (instrs := instructions_of (m_vNodes dag)).
  assert (Hstatic : CalculateNumberOfStallsRequired dag
                    = Z.of_nat (flagged_count instrs)).
  { unfold CalculateNumberOfStallsRequired. rewrite stalls_required_count.
    apply Z.add_0_l. }
  assert (Hlen : Z.of_nat (length instrs) = n).
  { unfold instrs, n, GetNumNodes. rewrite instructions_of_length, (inv_count dag Hg). lia. }
  pose proof (flagged_count_le instrs) as Hle.
  unfold CalculateSequentialExecutionCycles, CalculateCompleteOverlappedExecutionCycles,
    CalculatePartialOverlappedExecutionCycles, BASE_CYCLES_PER_INSTUCTION.
  fold n. rewrite Hstatic.
  split; [lia|]. split; [lia|]. split; [lia|]. split; [lia|].
  split; [lia|]. split; [lia|].
  intros Hclosed Hn.
  destruct instrs as [|x rest] eqn:E; [simpl in Hlen; lia|].
  pose proof (first_instruction_unflagged dag x rest Hg Hclosed E) as Hx.
  pose proof (flagged_count_le rest) as Hrest.
  unfold flagged_count in *. simpl in *. rewrite Hx in *. lia.
Qed.

Lemma cycle_estimates_witness :
  let dag := run_ops (CDependencyGraph_new 25)
               [OpAddNode 97; OpAddNode 98; OpAddNode 99;
                OpAddEdge 98 97 1; OpAddEdge 99 98 1] in
  CalculateNumberOfStallsRequired dag <= 3 - 1 /\
  CalculatePartialOverlappedExecutionCycles dag <= 2 * 3 + 2 /\
  CalculatePartialOverlappedExecutionCycles dag
    <= CalculateSequentialExecutionCycles dag.
Proof.
  intros dag.
  apply (proj2 (proj2 (proj2 (proj2 (proj2 (proj2 (cycle_estimates 25
           [OpAddNode 97; OpAddNode 98; OpAddNode 99;
            OpAddEdge 98 97 1; OpAddEdge 99 98 1]))))))).
  - reflexivity.
  - vm_compute. discriminate.
Defined.

(** *** The simulation the driver runs *)

(** X16.  On a graph in which every edge leads to an added node, the driver's
    simulation completes every instruction: when the polling loop stops, the
    completion counter holds the number of nodes, the cycle counter one more
    than the number of snapshots written, the queue is empty and only bubbles
    are left in the list; and polling again returns false at once. *)
Theorem simulation_totals (nMaxNodes : N) (ops : list graph_op) :
  let dag := run_ops (CDependencyGraph_new nMaxNodes) ops in
  edges_closed dag = true ->
  exists (cycles : nat) (sim' : CPipelineSim),
    (forall fuel, (cycles < fuel)%nat ->
       ExecutePipelineSimulation fuel CPipelineSim_new dag = Some (cycles, sim')) /\
    GetCompletionCount sim' = GetNumNodes dag /\
    GetCycle sim' = N.of_nat (S cycles) /\
    m_queInstructions sim' = [] /\
    forallb IsNOOP (m_lstInstructionPipeline sim') = true /\
    (exists sim'', poll 1 sim' = Some (O, sim'') /\
       GetCompletionCount sim'' = GetCompletionCount sim' /\
       GetStallCount sim'' = GetStallCount sim').
Proof.
  intros dag Hclosed.
  assert (Hg : graph_inv dag) by apply graph_inv_reachable.
  destruct (instructions_flag_ok dag Hg Hclosed) as [Hq Hf].
  set (instrs := instructions_of (m_vNodes dag)) in *.
  assert (Hlen : length instrs = N.to_nat (GetNumNodes dag)).
  { unfold instrs, GetNumNodes. rewrite instructions_of_length, (inv_count dag Hg). lia. }
  pose proof (num_nodes_bound dag Hg) as Hnum. fold (GetNumNodes dag) in Hnum.
  pose proof (flagged_count_le instrs) as Hle.
  destruct (whole_run instrs 0 Hq Hf) as (s1 & Hc1 & Hs1 & Hque1 & Hu1 & Hco1 & Hst1 & Hcy1).
  destruct (whole_run instrs 1 Hq Hf) as (s2 & Hc2 & Hs2 & Hque2 & Hu2 & Hco2 & Hst2 & Hcy2).
  set (s0 := insert_all CPipelineSim_new instrs) in *.
  set (k := calls_left s0) in *.
  assert (Hk : (k <= 53)%nat).
  { unfold k, s0. rewrite calls_left_start. destruct instrs; simpl in *; lia. }
  exists k, s1. split; [|split; [|split; [|split; [|split]]]].
  - intros fuel Hfuel. unfold ExecutePipelineSimulation.
    rewrite queue_of_graph. fold instrs.
    replace (mkSim 0 0 0 CONCURRENT_INSTRUCTION_LIMIT [] instrs) with s0
      by (unfold s0; now rewrite insert_all_queue).
    apply poll_calls; [|exact Hfuel].
    replace (S k) with (k + 1)%nat by lia. exact Hc1.
  - unfold GetCompletionCount. rewrite Hco1, Hlen, N.mod_small; [lia|].
    unfold DWORD_MODULUS. eapply N.le_lt_trans with 25%N; [lia | reflexivity].
  - unfold GetCycle. rewrite Hcy1, N.mod_small; [f_equal; lia|].
    unfold DWORD_MODULUS. eapply N.le_lt_trans with 54%N; [lia | reflexivity].
  - exact Hque1.
  - apply only_bubbles; [apply Hs1|].
    unfold unfinished, program_order in Hu1. rewrite Hque1, app_nil_r in Hu1. exact Hu1.
  - replace (k + 2)%nat with ((k + 1) + 1)%nat in Hc2 by lia.
    rewrite calls_app, Hc1 in Hc2.
    destruct (calls 1 s1) as [[bs s2']|] eqn:Hlast; [|discriminate].
    injection Hc2 as Hbs ->.
    assert (bs = [false]) as ->.
    { rewrite <- app_assoc in Hbs. apply app_inv_head in Hbs.
      simpl in Hbs. now injection Hbs as ->. }
    simpl in Hlast.
    destruct (ProcessNextCycle s1) as [[b s2']|] eqn:Hstep; [|discriminate].
    injection Hlast as -> ->.
    exists s2. simpl. rewrite Hstep. split; [reflexivity|].
    unfold GetCompletionCount, GetStallCount. now rewrite Hco1, Hco2, Hst1, Hst2.
Qed.

Lemma simulation_totals_witness :
  let dag := run_ops (CDependencyGraph_new 25)
               [OpAddNode 97; OpAddNode 98; OpAddNode 99; OpAddEdge 99 98 1] in
  exists (cycles : nat) (sim' : CPipelineSim),
    (forall fuel, (cycles < fuel)%nat ->
       ExecutePipelineSimulation fuel CPipelineSim_new dag = Some (cycles, sim')) /\
    GetCompletionCount sim' = GetNumNodes dag /\
    GetCycle sim' = N.of_nat (S cycles) /\
    m_queInstructions sim' = [] /\
    forallb IsNOOP (m_lstInstructionPipeline sim') = true /\
    (exists sim'', poll 1 sim' = Some (O, sim'') /\
       GetCompletionCount sim'' = GetCompletionCount sim' /\
       GetStallCount sim'' = GetStallCount sim').
Proof.
  apply (simulation_totals 25
           [OpAddNode 97; OpAddNode 98; OpAddNode 99; OpAddEdge 99 98 1]).
  vm_compute. reflexivity.
Defined.

(** *** The graph the loader builds *)












End DriverExtras.
